(** * Rental marketplace: relational schema, availability check, API envelope

  A shallow embedding of the data model (the Prisma schema), of the
  referential actions and uniqueness constraints the schema declares, of the
  reservation availability check, and of the API response helpers. *)

From stdpp Require Import base option numbers strings list gmap fin_maps sorting.

Local Open Scope Z_scope.

(** ** The schema: enums and models

  A [DateTime] is the number of milliseconds since the epoch, an [Int] is an
  integer, a [String?] is an [option string].  The [@id] column of a model is
  the key under which its row is stored in the table (see [Db.t] below), so the
  row records list the remaining columns. *)

Module ReservationStatus.
Inductive t := PENDING | CONFIRMED | CANCELLED | COMPLETED.
#[global] Instance ReservationStatus_eq_dec : EqDecision t.
Proof. solve_decision. Defined.
End ReservationStatus.

Module PaymentStatus.
Inductive t := PENDING | COMPLETED | FAILED | REFUNDED.
#[global] Instance PaymentStatus_eq_dec : EqDecision t.
Proof. solve_decision. Defined.
End PaymentStatus.

Module PaymentMethod.
Inductive t := STRIPE | PAYPAL | APPLE_PAY | GOOGLE_PAY.
#[global] Instance PaymentMethod_eq_dec : EqDecision t.
Proof. solve_decision. Defined.
End PaymentMethod.

Module User.
Record t := mk {
  email : string;                      (* @unique *)
  name : option string;
  image : option string;
  emailVerified : option Z;
  hashedPassword : option string;
  favoriteIds : list string;
  createdAt : Z;
  updatedAt : Z
}.
#[global] Instance User_eq_dec : EqDecision t.
Proof. solve_decision. Defined.
End User.

Module Account.
Record t := mk {
  userId : string;                     (* -> User, onDelete: Cascade *)
  type : string;
  provider : string;
  providerAccountId : string;          (* @@unique([provider, providerAccountId]) *)
  refresh_token : option string;
  access_token : option string;
  expires_at : option Z;
  token_type : option string;
  scope : option string;
  id_token : option string;
  session_state : option string
}.
#[global] Instance Account_eq_dec : EqDecision t.
Proof. solve_decision. Defined.
End Account.

Module Listing.
Record t := mk {
  title : string;
  description : string;
  imageSrc : list string;
  category : string;
  roomCount : Z;
  bathroomCount : Z;
  guestCount : Z;
  locationValue : string;
  price : Z;
  userId : string;                     (* -> User, onDelete: Cascade *)
  createdAt : Z;
  updatedAt : Z
}.
#[global] Instance Listing_eq_dec : EqDecision t.
Proof. solve_decision. Defined.
End Listing.

Module Reservation.
Record t := mk {
  userId : string;                     (* -> User, onDelete: Cascade *)
  listingId : string;                  (* -> Listing, onDelete: Cascade *)
  startDate : Z;
  endDate : Z;
  totalPrice : Z;
  status : ReservationStatus.t;        (* @default(PENDING) *)
  createdAt : Z;
  updatedAt : Z
}.
#[global] Instance Reservation_eq_dec : EqDecision t.
Proof. solve_decision. Defined.
End Reservation.

Module Review.
Record t := mk {
  rating : Z;
  comment : option string;
  userId : string;                     (* -> User, onDelete: Cascade *)
  listingId : string;                  (* -> Listing, onDelete: Cascade *)
  createdAt : Z;                       (* @@unique([userId, listingId]) *)
  updatedAt : Z
}.
#[global] Instance Review_eq_dec : EqDecision t.
Proof. solve_decision. Defined.
End Review.

Module Amenity.
Record t := mk {
  name : string;                       (* @unique *)
  icon : string;
  category : string
}.
#[global] Instance Amenity_eq_dec : EqDecision t.
Proof. solve_decision. Defined.
End Amenity.

Module Payment.
Record t := mk {
  reservationId : string;              (* @unique; -> Reservation, onDelete: Cascade *)
  amount : Z;
  currency : string;                   (* @default("usd") *)
  status : PaymentStatus.t;            (* @default(PENDING) *)
  stripeId : option string;
  paypalId : option string;
  method : PaymentMethod.t;
  createdAt : Z;
  updatedAt : Z
}.
#[global] Instance Payment_eq_dec : EqDecision t.
Proof. solve_decision. Defined.
End Payment.

(** ** Reservation availability checker

  The route handler that checks availability is not part of the sources at
  hand; the definitions of this module follow section 4.1 of the
  specification. *)

Module Availability.

(** Modelled from the spec: a half-open interval [[start, stop)] of
  instants, the candidate stay of the absent availability handler. *)
Record Interval := mkInterval { start : Z; stop : Z }.

(** Modelled from the spec: the interval [[startDate, endDate)] of a stored
  reservation, as the absent availability handler reads it. *)
Definition interval_of (r : Reservation.t) : Interval :=
  {| start := Reservation.startDate r; stop := Reservation.endDate r |}.

(** Modelled from the spec: the overlap test of the absent availability
  handler.  An existing interval [[s, e)] conflicts with the candidate
  [[start, end)] iff [start < e AND s < end]. *)
Definition overlaps (a b : Interval) : bool :=
  (start a <? stop b) && (start b <? stop a).

(** Modelled from the spec: the filter of the absent handler's read query,
  the reservations of the listing whose status is not CANCELLED. *)
Definition active_on (listingId : string) (r : Reservation.t) : Prop :=
  Reservation.listingId r = listingId ∧
  Reservation.status r ≠ ReservationStatus.CANCELLED.

#[global] Instance active_on_dec l r : Decision (active_on l r).
Proof. unfold active_on. apply _. Defined.

(** Modelled from the spec: what the absent handler answers, invalid input,
  available, or the conflicting reservations. *)
Inductive Result :=
| InvalidInput
| Available
| Conflicting (conflicts : gmap string Reservation.t).

(** Modelled from the spec: the read query of the absent handler, which
  fetches all non-cancelled reservations of the listing. *)
Definition existing (listingId : string) (rs : gmap string Reservation.t)
  : gmap string Reservation.t :=
  filter (λ kv, active_on listingId kv.2) rs.

(** Modelled from the spec: the fetched reservations that the overlap test
  of the absent handler finds in conflict with the candidate. *)
Definition conflicts (listingId : string) (cand : Interval)
  (rs : gmap string Reservation.t) : gmap string Reservation.t :=
  filter (λ kv, overlaps cand (interval_of kv.2) = true) (existing listingId rs).

(** Modelled from the spec: the availability checker (section 4.1), whose
  route handler is absent.  A zero-length or inverted candidate is rejected
  as invalid input before the overlap test runs; otherwise the answer is
  available, or the conflicting reservations. *)
Definition checkAvailability (listingId : string) (cand : Interval)
  (rs : gmap string Reservation.t) : Result :=
  if decide (start cand < stop cand) then
    let found := conflicts listingId cand rs in
    if decide (found = ∅) then Available else Conflicting found
  else InvalidInput.

End Availability.

(** ** The database: tables, constraints and referential actions

  A table maps the [@id] of a row to the row.  The storage layer enforces
  what the schema declares: primary keys, the [@unique] and [@@unique]
  columns, the foreign keys of the [@relation] fields, and [onDelete:
  Cascade] on every one of them. *)

Module Db.

Record t := mk {
  users : gmap string User.t;
  accounts : gmap string Account.t;
  listings : gmap string Listing.t;
  reservations : gmap string Reservation.t;
  reviews : gmap string Review.t;
  amenities : gmap string Amenity.t;
  payments : gmap string Payment.t;
  (* the relation table of Listing.amenities / Amenity.listings:
     pairs (amenity id, listing id) *)
  amenityToListing : gset (string * string)
}.

Definition empty : t := mk ∅ ∅ ∅ ∅ ∅ ∅ ∅ ∅.

Definition set_users v db :=
  mk v (accounts db) (listings db) (reservations db) (reviews db)
     (amenities db) (payments db) (amenityToListing db).
Definition set_accounts v db :=
  mk (users db) v (listings db) (reservations db) (reviews db)
     (amenities db) (payments db) (amenityToListing db).
Definition set_listings v db :=
  mk (users db) (accounts db) v (reservations db) (reviews db)
     (amenities db) (payments db) (amenityToListing db).
Definition set_reservations v db :=
  mk (users db) (accounts db) (listings db) v (reviews db)
     (amenities db) (payments db) (amenityToListing db).
Definition set_reviews v db :=
  mk (users db) (accounts db) (listings db) (reservations db) v
     (amenities db) (payments db) (amenityToListing db).
Definition set_amenities v db :=
  mk (users db) (accounts db) (listings db) (reservations db) (reviews db)
     v (payments db) (amenityToListing db).
Definition set_payments v db :=
  mk (users db) (accounts db) (listings db) (reservations db) (reviews db)
     (amenities db) v (amenityToListing db).
Definition set_amenityToListing v db :=
  mk (users db) (accounts db) (listings db) (reservations db) (reviews db)
     (amenities db) (payments db) v.

(** What a rejected write reports. *)
Inductive Error :=
| UniqueConstraintFailed      (* a primary key or unique column is taken *)
| ForeignKeyConstraintFailed  (* a referenced row does not exist *)
| RecordNotFound.             (* the row to update or delete does not exist *)

Inductive result (A : Type) :=
| Ok (a : A)
| Err (e : Error).
Arguments Ok {A} a.
Arguments Err {A} e.

(** *** Uniqueness constraints *)

(** No row other than [id] agrees with [r] on the constrained columns. *)
Definition unique_for {A} (same : A → A → Prop) (id : string) (r : A)
    (tbl : gmap string A) : Prop :=
  map_Forall (λ j r', same r' r → j = id) tbl.

Definition same_email (a b : User.t) : Prop := User.email a = User.email b.
Definition same_provider_account (a b : Account.t) : Prop :=
  Account.provider a = Account.provider b ∧
  Account.providerAccountId a = Account.providerAccountId b.
Definition same_user_listing (a b : Review.t) : Prop :=
  Review.userId a = Review.userId b ∧ Review.listingId a = Review.listingId b.
Definition same_name (a b : Amenity.t) : Prop := Amenity.name a = Amenity.name b.
Definition same_reservation (a b : Payment.t) : Prop :=
  Payment.reservationId a = Payment.reservationId b.

#[global] Instance same_email_dec : RelDecision same_email.
Proof. intros a b. unfold same_email. apply _. Defined.
#[global] Instance same_provider_account_dec : RelDecision same_provider_account.
Proof. intros a b. unfold same_provider_account. apply _. Defined.
#[global] Instance same_user_listing_dec : RelDecision same_user_listing.
Proof. intros a b. unfold same_user_listing. apply _. Defined.
#[global] Instance same_name_dec : RelDecision same_name.
Proof. intros a b. unfold same_name. apply _. Defined.
#[global] Instance same_reservation_dec : RelDecision same_reservation.
Proof. intros a b. unfold same_reservation. apply _. Defined.

#[global] Instance unique_for_dec {A} (same : A → A → Prop)
  `{!RelDecision same} id r tbl : Decision (unique_for same id r tbl).
Proof. unfold unique_for. apply _. Defined.

(** *** Writes: the checks shared by create and update

    The unique indexes are checked when the row is written, the foreign
    keys after that. *)

Definition write_user id r db : result t :=
  if decide (unique_for same_email id r (users db))
  then Ok (set_users (<[id:=r]> (users db)) db)
  else Err UniqueConstraintFailed.

Definition write_account id r db : result t :=
  if decide (unique_for same_provider_account id r (accounts db)) then
    if decide (is_Some (users db !! Account.userId r))
    then Ok (set_accounts (<[id:=r]> (accounts db)) db)
    else Err ForeignKeyConstraintFailed
  else Err UniqueConstraintFailed.

Definition write_listing id r db : result t :=
  if decide (is_Some (users db !! Listing.userId r))
  then Ok (set_listings (<[id:=r]> (listings db)) db)
  else Err ForeignKeyConstraintFailed.

Definition write_reservation id r db : result t :=
  if decide (is_Some (users db !! Reservation.userId r) ∧
             is_Some (listings db !! Reservation.listingId r))
  then Ok (set_reservations (<[id:=r]> (reservations db)) db)
  else Err ForeignKeyConstraintFailed.

Definition write_review id r db : result t :=
  if decide (unique_for same_user_listing id r (reviews db)) then
    if decide (is_Some (users db !! Review.userId r) ∧
               is_Some (listings db !! Review.listingId r))
    then Ok (set_reviews (<[id:=r]> (reviews db)) db)
    else Err ForeignKeyConstraintFailed
  else Err UniqueConstraintFailed.

Definition write_amenity id r db : result t :=
  if decide (unique_for same_name id r (amenities db))
  then Ok (set_amenities (<[id:=r]> (amenities db)) db)
  else Err UniqueConstraintFailed.

Definition write_payment id r db : result t :=
  if decide (unique_for same_reservation id r (payments db)) then
    if decide (is_Some (reservations db !! Payment.reservationId r))
    then Ok (set_payments (<[id:=r]> (payments db)) db)
    else Err ForeignKeyConstraintFailed
  else Err UniqueConstraintFailed.

(** [create] refuses an [@id] that is taken, [update] one that is absent. *)
Definition create {A} (tbl : t → gmap string A)
    (write : string → A → t → result t) id r db : result t :=
  if decide (is_Some (tbl db !! id)) then Err UniqueConstraintFailed
  else write id r db.

Definition update {A} (tbl : t → gmap string A)
    (write : string → A → t → result t) id r db : result t :=
  if decide (is_Some (tbl db !! id)) then write id r db
  else Err RecordNotFound.

Definition createUser := create users write_user.
Definition createAccount := create accounts write_account.
Definition createListing := create listings write_listing.
Definition createReservation := create reservations write_reservation.
Definition createReview := create reviews write_review.
Definition createAmenity := create amenities write_amenity.
Definition createPayment := create payments write_payment.

Definition updateUser := update users write_user.
Definition updateAccount := update accounts write_account.
Definition updateListing := update listings write_listing.
Definition updateReservation := update reservations write_reservation.
Definition updateReview := update reviews write_review.
Definition updateAmenity := update amenities write_amenity.
Definition updatePayment := update payments write_payment.

(** Connecting a listing and an amenity adds a row to the relation table. *)
Definition connectAmenity (amenity listing : string) db : result t :=
  if decide (is_Some (amenities db !! amenity) ∧ is_Some (listings db !! listing))
  then Ok (set_amenityToListing ({[(amenity, listing)]} ∪ amenityToListing db) db)
  else Err ForeignKeyConstraintFailed.

Definition disconnectAmenity (amenity listing : string) db : result t :=
  Ok (set_amenityToListing (amenityToListing db ∖ {[(amenity, listing)]}) db).

(** *** Deletes and [onDelete: Cascade] *)

(** Remove the rows whose key is in [gone]. *)
Definition remove {A} (gone : gset string) (tbl : gmap string A) : gmap string A :=
  filter (λ kv, kv.1 ∉ gone) tbl.

(** The keys of the rows whose foreign key [fk] points into [gone]. *)
Definition referencing {A} (fk : A → string) (gone : gset string)
    (tbl : gmap string A) : gset string :=
  dom (filter (λ kv, fk kv.2 ∈ gone) tbl).

Definition drop_payments (gone : gset string) db : t :=
  set_payments (remove gone (payments db)) db.

Definition drop_reviews (gone : gset string) db : t :=
  set_reviews (remove gone (reviews db)) db.

Definition drop_accounts (gone : gset string) db : t :=
  set_accounts (remove gone (accounts db)) db.

(** Reservation -> Payment *)
Definition drop_reservations (gone : gset string) db : t :=
  let db := drop_payments (referencing Payment.reservationId gone (payments db)) db in
  set_reservations (remove gone (reservations db)) db.

(** Listing -> Reservation, Review, and the relation table *)
Definition drop_listings (gone : gset string) db : t :=
  let db := drop_reservations (referencing Reservation.listingId gone (reservations db)) db in
  let db := drop_reviews (referencing Review.listingId gone (reviews db)) db in
  let db := set_amenityToListing (filter (λ p, p.2 ∉ gone) (amenityToListing db)) db in
  set_listings (remove gone (listings db)) db.

(** User -> Account, Listing, Reservation, Review *)
Definition drop_users (gone : gset string) db : t :=
  let db := drop_accounts (referencing Account.userId gone (accounts db)) db in
  let db := drop_listings (referencing Listing.userId gone (listings db)) db in
  let db := drop_reservations (referencing Reservation.userId gone (reservations db)) db in
  let db := drop_reviews (referencing Review.userId gone (reviews db)) db in
  set_users (remove gone (users db)) db.

Definition drop_amenities (gone : gset string) db : t :=
  let db := set_amenityToListing (filter (λ p, p.1 ∉ gone) (amenityToListing db)) db in
  set_amenities (remove gone (amenities db)) db.

Definition delete_from {A} (tbl : t → gmap string A)
    (drop : gset string → t → t) (id : string) db : result t :=
  if decide (is_Some (tbl db !! id)) then Ok (drop {[id]} db)
  else Err RecordNotFound.

Definition deleteUser := delete_from users drop_users.
Definition deleteAccount := delete_from accounts drop_accounts.
Definition deleteListing := delete_from listings drop_listings.
Definition deleteReservation := delete_from reservations drop_reservations.
Definition deleteReview := delete_from reviews drop_reviews.
Definition deleteAmenity := delete_from amenities drop_amenities.
Definition deletePayment := delete_from payments drop_payments.

(** *** Operations and reachable states *)

Inductive Op :=
| CreateUser (id : string) (r : User.t)
| CreateAccount (id : string) (r : Account.t)
| CreateListing (id : string) (r : Listing.t)
| CreateReservation (id : string) (r : Reservation.t)
| CreateReview (id : string) (r : Review.t)
| CreateAmenity (id : string) (r : Amenity.t)
| CreatePayment (id : string) (r : Payment.t)
| UpdateUser (id : string) (r : User.t)
| UpdateAccount (id : string) (r : Account.t)
| UpdateListing (id : string) (r : Listing.t)
| UpdateReservation (id : string) (r : Reservation.t)
| UpdateReview (id : string) (r : Review.t)
| UpdateAmenity (id : string) (r : Amenity.t)
| UpdatePayment (id : string) (r : Payment.t)
| ConnectAmenity (amenity listing : string)
| DisconnectAmenity (amenity listing : string)
| DeleteUser (id : string)
| DeleteAccount (id : string)
| DeleteListing (id : string)
| DeleteReservation (id : string)
| DeleteReview (id : string)
| DeleteAmenity (id : string)
| DeletePayment (id : string).

Definition apply (op : Op) (db : t) : result t :=
  match op with
  | CreateUser id r => createUser id r db
  | CreateAccount id r => createAccount id r db
  | CreateListing id r => createListing id r db
  | CreateReservation id r => createReservation id r db
  | CreateReview id r => createReview id r db
  | CreateAmenity id r => createAmenity id r db
  | CreatePayment id r => createPayment id r db
  | UpdateUser id r => updateUser id r db
  | UpdateAccount id r => updateAccount id r db
  | UpdateListing id r => updateListing id r db
  | UpdateReservation id r => updateReservation id r db
  | UpdateReview id r => updateReview id r db
  | UpdateAmenity id r => updateAmenity id r db
  | UpdatePayment id r => updatePayment id r db
  | ConnectAmenity a l => connectAmenity a l db
  | DisconnectAmenity a l => disconnectAmenity a l db
  | DeleteUser id => deleteUser id db
  | DeleteAccount id => deleteAccount id db
  | DeleteListing id => deleteListing id db
  | DeleteReservation id => deleteReservation id db
  | DeleteReview id => deleteReview id db
  | DeleteAmenity id => deleteAmenity id db
  | DeletePayment id => deletePayment id db
  end.

(** A rejected operation leaves the database as it was. *)
Definition exec (op : Op) (db : t) : t :=
  match apply op db with Ok db' => db' | Err _ => db end.

Definition run (ops : list Op) (db : t) : t := foldl (λ d op, exec op d) db ops.

Inductive reachable : t → Prop :=
| reachable_empty : reachable empty
| reachable_step db op db' :
    reachable db → apply op db = Ok db' → reachable db'.

(** *** Invariants the constraints stand for *)

Definition unique_on {A} (same : A → A → Prop) (tbl : gmap string A) : Prop :=
  ∀ i j r1 r2, tbl !! i = Some r1 → tbl !! j = Some r2 → same r1 r2 → i = j.

(** How one operation changes a table with a unique column: rows are
  removed, or one row is written that passed the uniqueness check. *)
Definition table_step {A} (same : A → A → Prop) (tbl tbl' : gmap string A) : Prop :=
  tbl' ⊆ tbl ∨ ∃ id r, unique_for same id r tbl ∧ tbl' = <[id:=r]> tbl.

Definition one_review_per_user_listing (db : t) : Prop :=
  unique_on same_user_listing (reviews db).

Definition one_payment_per_reservation (db : t) : Prop :=
  unique_on same_reservation (payments db).

(** Every foreign key [fk] of a row of [children] is the key of a row of
  [parents]. *)
Definition refs {C P} (fk : C → string) (children : gmap string C)
    (parents : gmap string P) : Prop :=
  ∀ i r, children !! i = Some r → is_Some (parents !! fk r).

(** No foreign key of the schema dangles. *)
Record referential_integrity (db : t) : Prop := mkIntegrity {
  account_user : refs Account.userId (accounts db) (users db);
  listing_user : refs Listing.userId (listings db) (users db);
  reservation_user : refs Reservation.userId (reservations db) (users db);
  reservation_listing : refs Reservation.listingId (reservations db) (listings db);
  review_user : refs Review.userId (reviews db) (users db);
  review_listing : refs Review.listingId (reviews db) (listings db);
  payment_reservation : refs Payment.reservationId (payments db) (reservations db);
  relation_rows : ∀ a l, (a, l) ∈ amenityToListing db →
                    is_Some (amenities db !! a) ∧ is_Some (listings db !! l)
}.

End Db.

(** ** Booking: the availability check followed by the insert

  The route handler that creates a reservation is not part of the sources at
  hand; the definitions of this module follow sections 4.1 and 5 of the
  specification, over the storage operations of [Db]. *)

Module Booking.
Import Availability.

(** Modelled from the spec: the input of the absent booking handler; [id] is
  the [cuid()] drawn for the new row and [now] the instant of the insert. *)
Record Request := mkRequest {
  id : string;
  userId : string;
  listingId : string;
  startDate : Z;
  endDate : Z;
  totalPrice : Z;
  now : Z
}.

(** Modelled from the spec: the candidate stay of the absent booking
  handler's request. *)
Definition candidate (req : Request) : Interval :=
  {| start := startDate req; stop := endDate req |}.

(** Modelled from the spec: the row the absent booking handler inserts;
  [status] takes the schema's default. *)
Definition row (req : Request) : Reservation.t :=
  {| Reservation.userId := userId req;
     Reservation.listingId := listingId req;
     Reservation.startDate := startDate req;
     Reservation.endDate := endDate req;
     Reservation.totalPrice := totalPrice req;
     Reservation.status := ReservationStatus.PENDING;
     Reservation.createdAt := now req;
     Reservation.updatedAt := now req |}.

(** Modelled from the spec: how an attempt of the absent booking handler
  ends. *)
Inductive Outcome :=
| Booked
| Rejected (r : Result)
| Failed (e : Db.Error).

(** Modelled from the spec: where an attempt of the absent booking handler
  stands, before its read query, between the read query and the insert, or
  done. *)
Inductive Phase :=
| Start
| Checked (r : Result)
| Finished (o : Outcome).

(** Modelled from the spec: one database access of the absent booking
  handler (section 5).  The availability check runs as a read query followed
  by an insert; each is one access to the database, and no transaction or
  lock ties the two together. *)
Definition step (req : Request) (st : Db.t * Phase) : Db.t * Phase :=
  match st.2 with
  | Start =>
      (st.1, Checked (checkAvailability (listingId req) (candidate req)
                        (Db.reservations st.1)))
  | Checked Available =>
      match Db.createReservation (id req) (row req) st.1 with
      | Db.Ok db' => (db', Finished Booked)
      | Db.Err e => (st.1, Finished (Failed e))
      end
  | Checked r => (st.1, Finished (Rejected r))
  | Finished _ => st
  end.

(** Modelled from the spec: the absent booking handler run on its own, the
  read query and then the insert. *)
Definition book (req : Request) (db : Db.t) : Db.t * Phase :=
  step req (step req (db, Start)).

(** Modelled from the spec: two attempts of the absent booking handler in
  flight over one database (section 5: each request is handled
  independently). *)
Inductive Who := First | Second.

Record System := mkSystem {
  db : Db.t;
  first : Phase;
  second : Phase
}.

Definition init (d : Db.t) : System := mkSystem d Start Start.

(** Modelled from the spec: the next database access of one of the two
  attempts of the absent booking handler. *)
Definition sys_step (a b : Request) (s : System) (who : Who) : System :=
  match who with
  | First => let st := step a (db s, first s) in mkSystem st.1 st.2 (second s)
  | Second => let st := step b (db s, second s) in mkSystem st.1 (first s) st.2
  end.

(** Modelled from the spec: the two attempts of the absent booking handler
  run under a schedule, one database access at a time. *)
Definition interleave (a b : Request) (schedule : list Who) (s : System) : System :=
  foldl (sys_step a b) s schedule.

(** Both read queries first, then both inserts. *)
Definition racy : list Who := [First; Second; First; Second].

(** The invariant of the data model (section 3): on one listing, no two
  reservations whose status is not CANCELLED overlap. *)
Definition no_double_booking (rs : gmap string Reservation.t) : Prop :=
  ∀ i j r1 r2,
    rs !! i = Some r1 → rs !! j = Some r2 → i ≠ j →
    Reservation.listingId r1 = Reservation.listingId r2 →
    Reservation.status r1 ≠ ReservationStatus.CANCELLED →
    Reservation.status r2 ≠ ReservationStatus.CANCELLED →
    overlaps (interval_of r1) (interval_of r2) = false.



End Booking.

(** ** API responses *)

Module Api.

(** JSON values.  Numbers are integers here, which is all the schemas and
  the envelope compare; the fields of an object have distinct keys. *)
#[warnings="-register-all"] Inductive json :=
| JNull
| JBool (b : bool)
| JNum (n : Z)
| JStr (s : string)
| JArr (items : list json)
| JObj (fields : list (string * json)).

Record Meta := mkMeta {
  page : option Z;
  limit : option Z;
  total : option Z;
  totalPages : option Z
}.

(** [interface ApiResponse<T>]; a field marked [?] is an [option]. *)
Record ApiResponse (T : Type) := mkApiResponse {
  success : bool;
  data : option T;
  error : option string;
  message : option string;
  meta : option Meta
}.
Arguments mkApiResponse {T}.
Arguments success {T}.
Arguments data {T}.
Arguments error {T}.
Arguments message {T}.
Arguments meta {T}.

Definition successResponse {T} (data : T) (message : option string)
    (meta : option Meta) : ApiResponse T :=
  {| success := true; data := Some data; error := None;
     message := message; meta := meta |}.

Inductive Body :=
| Json (j : json)
| Text (s : string).

Record Response := mkResponse { status : Z; body : Body }.

(** What a call that builds a response may throw. *)
Inductive Thrown :=
| RangeError   (* the status is not in the range 200 to 599 *)
| TypeError.   (* a body was given with a null body status *)

(** How a call ends: it returns a value or it throws. *)
Inductive Completion (A : Type) :=
| Returned (a : A)
| Threw (e : Thrown).
Arguments Returned {A} a.
Arguments Threw {A} e.

Definition status_of (c : Completion Response) : option Z :=
  match c with Returned r => Some (status r) | Threw _ => None end.

(** The [status] of a [ResponseInit] is an [unsigned short]: an integer is
  read modulo 2^16. *)
Definition unsigned_short (n : Z) : Z := n mod 65536.

(** The statuses of a response that has no body. *)
Definition null_body_status : list Z := [101; 103; 204; 205; 304].

(** The statuses that a response with a body can be given. *)
Definition carries_body (status : Z) : Prop :=
  200 ≤ status ≤ 599 ∧ status ∉ null_body_status.

#[global] Instance carries_body_dec status : Decision (carries_body status).
Proof. unfold carries_body. apply _. Defined.

(** [NextResponse.json(body, { status })]: a response with that JSON body
  and that status.  The [Response] under it refuses a status outside 200 to
  599 with a [RangeError], and a body together with a null body status with
  a [TypeError]; the range is checked first. *)
Definition NextResponse_json (j : json) (status : Z) : Completion Response :=
  let status := unsigned_short status in
  if decide (200 ≤ status ≤ 599) then
    if decide (status ∈ null_body_status) then Threw TypeError
    else Returned {| status := status; body := Json j |}
  else Threw RangeError.

(** [statusCode: number = 400]: [None] is a call without the argument. *)
Definition errorResponse (error : string) (statusCode : option Z)
    : Completion Response :=
  NextResponse_json (JObj [("success", JBool false); ("error", JStr error)])
                    (default 400 statusCode).

(** What [JSON.stringify] makes of an [ApiResponse]: a field that is
    [undefined] is left out. *)
Definition field {A} (k : string) (enc : A → json) (v : option A)
    : list (string * json) :=
  match v with Some a => [(k, enc a)] | None => [] end.

Definition meta_json (m : Meta) : json :=
  JObj (field "page" JNum (page m) ++ field "limit" JNum (limit m) ++
        field "total" JNum (total m) ++ field "totalPages" JNum (totalPages m)).

Definition toJSON (r : ApiResponse json) : json :=
  JObj (("success", JBool (success r)) ::
        field "data" id (data r) ++ field "error" JStr (error r) ++
        field "message" JStr (message r) ++ field "meta" meta_json (meta r)).

(** *** The authorization middleware *)

Record SessionUser := mkSessionUser { email : string; role : string }.

Record Request := mkRequest { user : option SessionUser; payload : json }.

Definition Handler := Request → Response.

(** [res.status(code).json(j)] *)
Definition res_status_json (code : Z) (j : json) : Response :=
  {| status := code; body := Json j |}.

(** [session] is what [getServerSession] returned: the user of the session,
    or [None] when there is no session. *)
Definition withAuth (handler : Handler) (session : option SessionUser) : Handler :=
  λ req,
    match session with
    | None => res_status_json 401 (JObj [("error", JStr "Unauthorized")])
    | Some u => handler {| user := Some u; payload := payload req |}
    end.

Definition withRole (roles : list string) (handler : Handler) : Handler :=
  λ req,
    match user req with
    | Some u =>
        if decide (role u ∈ roles) then handler req
        else res_status_json 403 (JObj [("error", JStr "Forbidden")])
    | None => res_status_json 403 (JObj [("error", JStr "Forbidden")])
    end.

(** [withRateLimit]: [limited] is what [ratelimit.limit(identifier)]
  returned.  [None] lets the request proceed.  The three [X-RateLimit]
  headers of the 429 are not part of [Response]. *)
Record RatelimitResult := mkRatelimitResult {
  rl_success : bool;
  rl_limit : Z;
  rl_reset : Z;
  rl_remaining : Z
}.

Definition withRateLimit (limited : RatelimitResult) : option Response :=
  if rl_success limited then None
  else Some {| status := 429; body := Text "Too Many Requests" |}.

(** *** The route handler of the API route guidelines *)

Fixpoint get (k : string) (fields : list (string * json)) : option json :=
  match fields with
  | [] => None
  | (k', v) :: rest => if decide (k' = k) then Some v else get k rest
  end.

Record PropertyInput := mkPropertyInput {
  title : string;
  description : string;
  price : Z
}.

(** [createPropertySchema.parse(body)]: a title of 1 to 100 characters, a
  description of 10 to 1000, a positive price; [None] when [parse] throws.
  Lengths are counted on ASCII text, where a character is one code unit. *)
Definition createPropertySchema_parse (body : json) : option PropertyInput :=
  match body with
  | JObj fields =>
      match get "title" fields, get "description" fields, get "price" fields with
      | Some (JStr t), Some (JStr d), Some (JNum p) =>
          if decide ((1 ≤ String.length t ≤ 100)%nat ∧
                     (10 ≤ String.length d ≤ 1000)%nat ∧ 0 < p)
          then Some {| title := t; description := d; price := p |}
          else None
      | _, _, _ => None
      end
  | _ => None
  end.

(** [try { ... } catch (error) { ... }]: what is thrown in the block is
  answered by the handler. *)
Definition try_catch {A} (block handler : Completion A) : Completion A :=
  match block with
  | Returned a => Returned a
  | Threw _ => handler
  end.

(** [POST(request)].  [body] is what [request.json()] returned, [None] when
  it threw; [implementation] stands for the elided body of the handler,
  [None] when it threw.  Whatever is thrown inside the [try] is caught and
  answered with the same 400.  A call of [NextResponse.json] without a
  status has the status 200. *)
Definition POST (body : option json)
    (implementation : PropertyInput → option json) : Completion Response :=
  let caught :=
    NextResponse_json (JObj [("error", JStr "Invalid request data")]) 400 in
  match (body ≫= createPropertySchema_parse) ≫= implementation with
  | Some result =>
      try_catch
        (NextResponse_json (JObj [("success", JBool true); ("data", result)]) 200)
        caught
  | None => caught
  end.

(** *** The envelope [{ success: boolean, data?: T, error?: string }] *)

Definition envelope_keys : list string := ["success"; "data"; "error"].

Definition is_bool (o : option json) : bool :=
  match o with Some (JBool _) => true | _ => false end.

Definition is_optional_string (o : option json) : bool :=
  match o with None | Some (JStr _) => true | _ => false end.

Definition uniform_envelope (j : json) : bool :=
  match j with
  | JObj fields =>
      forallb (λ kv, bool_decide (kv.1 ∈ envelope_keys)) fields
      && is_bool (get "success" fields)
      && is_optional_string (get "error" fields)
  | _ => false
  end.

Definition has_uniform_envelope (r : Response) : bool :=
  match body r with
  | Json j => uniform_envelope j
  | Text _ => false
  end.

End Api.

(** ** Concrete rows and requests used by the examples *)

Module Scenario.
Import Availability.

(** Midnight UTC of the days of June 2024 named in the scenario, in
  milliseconds since the epoch. *)
Definition jun01 : Z := 1717200000000.
Definition jun03 : Z := 1717372800000.
Definition jun05 : Z := 1717545600000.
Definition jun07 : Z := 1717718400000.
Definition jun08 : Z := 1717804800000.
Definition jun10 : Z := 1717977600000.

Definition host : User.t :=
  User.mk "host@example.com" (Some "Hana") None None None [] 0 0.
Definition guest : User.t :=
  User.mk "guest@example.com" (Some "Gil") None None None [] 0 0.
Definition other_guest : User.t :=
  User.mk "other@example.com" None None None None [] 0 0.

Definition loft : Listing.t :=
  Listing.mk "Loft" "A loft by the river" ["https://img/1"] "apartment"
             2 1 4 "PT" 120 "host" 0 0.

(** The confirmed reservation [[2024-06-01, 2024-06-05)] of listing L. *)
Definition stay : Reservation.t :=
  Reservation.mk "guest" "L" jun01 jun05 480 ReservationStatus.CONFIRMED 0 0.

Definition booked : gmap string Reservation.t := {[ "r1" := stay ]}.

Definition adjacent_request : Interval := mkInterval jun05 jun10.
Definition overlapping_request : Interval := mkInterval jun03 jun07.
Definition inverted_request : Interval := mkInterval jun10 jun08.

(** A database with the host, two guests and the listing, and nothing booked. *)
Definition market : Db.t :=
  Db.run [Db.CreateUser "host" host; Db.CreateUser "guest" guest;
          Db.CreateUser "other" other_guest; Db.CreateListing "L" loft]
         Db.empty.

(** Two attempts on listing L for [[06-01, 06-05)] and [[06-03, 06-07)]. *)
Definition attempt1 : Booking.Request :=
  Booking.mkRequest "r1" "guest" "L" jun01 jun05 480 1.
Definition attempt2 : Booking.Request :=
  Booking.mkRequest "r2" "other" "L" jun03 jun07 480 1.




Definition review1 : Review.t := Review.mk 5 (Some "Lovely") "guest" "L" 2 2.
Definition review2 : Review.t := Review.mk 1 None "guest" "L" 3 3.

Definition payment1 : Payment.t :=
  Payment.mk "r1" 480 "usd" PaymentStatus.PENDING None None PaymentMethod.STRIPE 4 4.

(** The market after a booking, a review and a payment by the guest. *)
Definition busy_market : Db.t :=
  Db.run [Db.CreateReservation "r1" stay; Db.CreateReview "v1" review1;
          Db.CreatePayment "p1" payment1] market.

Definition anonymous : Api.Request := Api.mkRequest None Api.JNull.
Definition exhausted : Api.RatelimitResult := Api.mkRatelimitResult false 10 0 0.
Definition echo_title : Api.PropertyInput → option Api.json :=
  λ p, Some (Api.JStr (Api.title p)).
Definition loft_body : Api.json :=
  Api.JObj [("title", Api.JStr "Loft");
            ("description", Api.JStr "A loft by the river");
            ("price", Api.JNum 120)].
Definition free_body : Api.json :=
  Api.JObj [("title", Api.JStr "Loft");
            ("description", Api.JStr "A loft by the river");
            ("price", Api.JNum 0)].
Definition ok_handler : Api.Handler :=
  λ _, Api.res_status_json 200 (Api.toJSON (Api.successResponse (Api.JStr "pong") None None)).

End Scenario.

(** ** The hydration script of the root layout *)

Module Layout.

(** An element of the document with its attributes, name and value, in
  document order. *)
Record Element := mkElement {
  tagName : string;
  attributes : list (string * string)
}.

(** [el.hasAttribute(name)] *)
Definition hasAttribute (name : string) (el : Element) : bool :=
  bool_decide (name ∈ (attributes el).*1).

(** [el.removeAttribute(name)] *)
Definition removeAttribute (name : string) (el : Element) : Element :=
  {| tagName := tagName el;
     attributes := filter (λ a, a.1 ≠ name) (attributes el) |}.

Definition removeIfPresent (name : string) (el : Element) : Element :=
  if hasAttribute name el then removeAttribute name el else el.

(** The body of the [forEach] over [document.querySelectorAll('*')]: the
  three extension attributes go, then every attribute of the snapshot
  [Array.from(el.attributes)] whose name starts with [__processed_]. *)
Definition cleanElement (el : Element) : Element :=
  let el := removeIfPresent "bis_skin_checked" el in
  let el := removeIfPresent "bis_register" el in
  let el := removeIfPresent "data-arp" el in
  foldl (λ e attr,
           if String.prefix "__processed_" attr.1
           then removeAttribute attr.1 e else e)
        el (attributes el).

(** [removeAttributes()], on the elements of the document. *)
Definition removeAttributes (document : list Element) : list Element :=
  cleanElement <$> document.

(** The names the script removes. *)
Definition injected (name : string) : bool :=
  bool_decide (name ∈ ["bis_skin_checked"; "bis_register"; "data-arp"])
  || String.prefix "__processed_" name.

End Layout.

(** ** The client-side store *)

Module Store.

Section state.
Context {User SearchFilters Listing Reservation : Type}.

(** [interface AppState] *)
Record AppState := mkAppState {
  user : option User;
  isAuthenticated : bool;
  isLoginModalOpen : bool;
  isRegisterModalOpen : bool;
  searchFilters : SearchFilters;
  listings : list Listing;
  favorites : list string;
  reservations : list Reservation
}.

(** [setUser: (user) => set({ user, isAuthenticated: !!user })] *)
Definition setUser (u : option User) (s : AppState) : AppState :=
  {| user := u;
     isAuthenticated := bool_decide (is_Some u);
     isLoginModalOpen := isLoginModalOpen s;
     isRegisterModalOpen := isRegisterModalOpen s;
     searchFilters := searchFilters s;
     listings := listings s;
     favorites := favorites s;
     reservations := reservations s |}.

(** What came back from [fetch('/api/auth/login')]: the request failed, or a
  response with its [ok] flag and its body.  The body is [None] when
  [response.json()] threw or gave nothing to destructure, and otherwise the
  [user] property of the object, [None] when it is missing or null. *)
Inductive LoginReply :=
| FetchFailed
| Responded (ok : bool) (body : option (option User)).

(** [login]: only an [ok] response with a readable body changes the store;
  everything thrown is caught and logged. *)
Definition login (reply : LoginReply) (s : AppState) : AppState :=
  match reply with
  | Responded true (Some u) =>
      {| user := u;
         isAuthenticated := true;
         isLoginModalOpen := false;
         isRegisterModalOpen := isRegisterModalOpen s;
         searchFilters := searchFilters s;
         listings := listings s;
         favorites := favorites s;
         reservations := reservations s |}
  | _ => s
  end.

(** The store says authenticated exactly when it holds a user. *)
Definition consistent (s : AppState) : Prop :=
  isAuthenticated s = bool_decide (is_Some (user s)).

End state.

Arguments AppState : clear implicits.
Arguments LoginReply : clear implicits.

(** The initial state of [useAppStore], with [searchFilters: {}]. *)
Definition initial {User SearchFilters Listing Reservation} (none : SearchFilters)
    : AppState User SearchFilters Listing Reservation :=
  mkAppState None false false false none [] [] [].

End Store.

(** ** Input validation *)

Module Validation.
Import Api.

(** What [createListingSchema] yields: the ten declared keys and nothing
  else. *)
Record ListingInput := mkListingInput {
  title : string;
  description : string;
  category : string;
  roomCount : Z;
  bathroomCount : Z;
  guestCount : Z;
  locationValue : string;
  price : Z;
  imageSrc : list string;
  amenities : option (list string)
}.

Definition categories : list string := ["house"; "apartment"; "hotel"; "unique"].

Definition as_string (j : option json) : option string :=
  match j with Some (JStr s) => Some s | _ => None end.

Definition as_number (j : option json) : option Z :=
  match j with Some (JNum n) => Some n | _ => None end.

(** [z.array(z.string())] *)
Definition as_strings (j : option json) : option (list string) :=
  match j with
  | Some (JArr items) => mapM (λ item, as_string (Some item)) items
  | _ => None
  end.

(** [z.array(z.string()).optional()]: a missing key is accepted. *)
Definition as_optional_strings (j : option json) : option (option (list string)) :=
  match j with
  | None => Some None
  | Some _ => Some <$> as_strings j
  end.

Section schema.
(** What [z.string().url()] and [z.string().cuid()] accept. *)
Variables (is_url is_cuid : string → bool).

(** [createListingSchema.parse(body)]; [None] when it throws.  Every number
  of [json] is an integer, so [.int()] holds of each; lengths are counted on
  ASCII text. *)
Definition createListingSchema_parse (body : json) : option ListingInput :=
  match body with
  | JObj fields =>
      t ← as_string (get "title" fields);
      d ← as_string (get "description" fields);
      c ← as_string (get "category" fields);
      rooms ← as_number (get "roomCount" fields);
      baths ← as_number (get "bathroomCount" fields);
      guests ← as_number (get "guestCount" fields);
      loc ← as_string (get "locationValue" fields);
      p ← as_number (get "price" fields);
      imgs ← as_strings (get "imageSrc" fields);
      ams ← as_optional_strings (get "amenities" fields);
      if decide ((1 ≤ String.length t ≤ 100)%nat ∧
                 (10 ≤ String.length d ≤ 1000)%nat ∧
                 c ∈ categories ∧
                 1 ≤ rooms ≤ 20 ∧ 1 ≤ baths ≤ 10 ∧ 1 ≤ guests ≤ 50 ∧
                 (1 ≤ String.length loc)%nat ∧
                 1 ≤ p ≤ 10000 ∧
                 (1 ≤ length imgs ≤ 10)%nat ∧ forallb is_url imgs = true ∧
                 forallb is_cuid (default [] ams) = true)
      then Some (mkListingInput t d c rooms baths guests loc p imgs ams)
      else None
  | _ => None
  end.

End schema.

End Validation.

(** ** Listing search *)

Module Search.

Record PriceRange := mkPriceRange { min : option Z; max : option Z }.

(** The fields of [SearchFilters] the query reads; [None] is [undefined]. *)
Record SearchFilters := mkSearchFilters {
  category : option string;
  location : option string;
  priceRange : option PriceRange;
  amenities : option (list string);
  page : option Z
}.

(** [s && ...] for a string that may be undefined: the empty string counts
  as absent. *)
Definition given_string (s : option string) : option string :=
  match s with
  | Some v => if decide (v = "") then None else Some v
  | None => None
  end.

(** [n ? ... : ...] for a number that may be undefined: zero counts as
  absent. *)
Definition given_number (n : option Z) : option Z :=
  match n with
  | Some v => if decide (v = 0) then None else Some v
  | None => None
  end.

(** The clauses of [where]. *)
Definition category_ok (f : SearchFilters) (l : Listing.t) : Prop :=
  match given_string (category f) with
  | Some c => Listing.category l = c
  | None => True
  end.

Definition location_ok (f : SearchFilters) (l : Listing.t) : Prop :=
  match given_string (location f) with
  | Some v => Listing.locationValue l = v
  | None => True
  end.

(** [price: { gte: min, lte: max }]; a bound that is undefined is no bound. *)
Definition price_ok (f : SearchFilters) (l : Listing.t) : Prop :=
  match priceRange f with
  | Some r =>
      match min r with Some m => m ≤ Listing.price l | None => True end ∧
      match max r with Some m => Listing.price l ≤ m | None => True end
  | None => True
  end.

(** [amenities: { some: { id: { in: amenities } } }]: the listing is related
  to an amenity whose id is in the list.  A list, even an empty one, is a
  filter. *)
Definition amenities_ok (f : SearchFilters) (db : Db.t) (listing : string) : Prop :=
  match amenities f with
  | Some wanted =>
      Exists (λ a, is_Some (Db.amenities db !! a) ∧
                   (a, listing) ∈ Db.amenityToListing db) wanted
  | None => True
  end.

Definition matches (f : SearchFilters) (db : Db.t) (kv : string * Listing.t) : Prop :=
  category_ok f kv.2 ∧ location_ok f kv.2 ∧ price_ok f kv.2 ∧ amenities_ok f db kv.1.

#[global] Instance matches_dec f db kv : Decision (matches f db kv).
Proof.
  unfold matches, category_ok, location_ok, price_ok, amenities_ok.
  repeat case_match; apply _.
Defined.

(** [orderBy: { createdAt: 'desc' }] *)
Definition newer_first (a b : string * Listing.t) : Prop :=
  Listing.createdAt b.2 ≤ Listing.createdAt a.2.

#[global] Instance newer_first_dec : RelDecision newer_first.
Proof. intros a b. unfold newer_first. apply _. Defined.

(** [user: { select: { id, name, image } }] *)
Record Owner := mkOwner {
  owner_id : string;
  owner_name : option string;
  owner_image : option string
}.

(** A row of the result with what [include] adds. *)
Record Found := mkFound {
  id : string;
  listing : Listing.t;
  user : option Owner;
  reviews : list Z;
  count_reviews : nat
}.

Definition reviews_of (db : Db.t) (listing : string) : gmap string Review.t :=
  filter (λ kv, Review.listingId kv.2 = listing) (Db.reviews db).

Definition include (db : Db.t) (kv : string * Listing.t) : Found :=
  {| id := kv.1;
     listing := kv.2;
     user := (λ u, mkOwner (Listing.userId kv.2) (User.name u) (User.image u))
               <$> Db.users db !! Listing.userId kv.2;
     reviews := (λ r, Review.rating r.2) <$> map_to_list (reviews_of db kv.1);
     count_reviews := size (reviews_of db kv.1) |}.

(** The rows that satisfy [where], newest first.  Rows created at the same
  instant come in an order that the query leaves open; here it is the order
  in which the table is enumerated. *)
Definition ordered (f : SearchFilters) (db : Db.t) : list (string * Listing.t) :=
  merge_sort newer_first (map_to_list (filter (matches f db) (Db.listings db))).

(** [skip: filters.page ? (filters.page - 1) * 20 : 0] *)
Definition skip (f : SearchFilters) : Z :=
  match given_number (page f) with
  | Some p => (p - 1) * 20
  | None => 0
  end.

(** [getListingsWithFilters(filters)]; [None] when the query is refused
  because [skip] is negative. *)
Definition getListingsWithFilters (f : SearchFilters) (db : Db.t)
    : option (list Found) :=
  if decide (0 ≤ skip f)
  then Some (include db <$> take 20 (drop (Z.to_nat (skip f)) (ordered f db)))
  else None.

Definition on_page (p : Z) (f : SearchFilters) : SearchFilters :=
  mkSearchFilters (category f) (location f) (priceRange f) (amenities f) (Some p).

(** What the database may hand to [take] and [skip]: the rows that satisfy
  [where], in an order that has the newest first.  Which of two rows created
  at the same instant comes first is up to the database, and need not be the
  same in two calls; [ordered] is one such order. *)
Definition admissible (f : SearchFilters) (db : Db.t)
    (l : list (string * Listing.t)) : Prop :=
  l ≡ₚ map_to_list (filter (matches f db) (Db.listings db)) ∧
  StronglySorted newer_first l.

(** A page that a call of [getListingsWithFilters] may return. *)
Definition may_return (f : SearchFilters) (db : Db.t) (rows : list Found) : Prop :=
  0 ≤ skip f ∧
  ∃ l, admissible f db l ∧
       rows = include db <$> take 20 (drop (Z.to_nat (skip f)) l).

(** No two rows that satisfy [where] were created at the same instant. *)
Definition distinct_instants (f : SearchFilters) (db : Db.t) : Prop :=
  ∀ i j a b,
    Db.listings db !! i = Some a → Db.listings db !! j = Some b →
    matches f db (i, a) → matches f db (j, b) →
    Listing.createdAt a = Listing.createdAt b → i = j.

End Search.

(** ** The listings cache *)

Module Cache.

(** The keys of the store: a value and the instant, in seconds, at which it
  expires. *)
Abbreviation Redis := (gmap string (string * Z)).

(** [redis.get(key)] at the instant [now] *)
Definition redis_get (now : Z) (key : string) (r : Redis) : option string :=
  match r !! key with
  | Some (v, expires) => if decide (now < expires) then Some v else None
  | None => None
  end.

(** [redis.setex(key, seconds, value)] at the instant [now] *)
Definition redis_setex (now : Z) (key : string) (seconds : Z) (v : string)
    (r : Redis) : Redis :=
  <[key := (v, now + seconds)]> r.

Section cached.
Context {Data : Type}.
(** [JSON.parse], [None] when it throws, and [JSON.stringify]. *)
Variables (parse : string → option Data) (stringify : Data → string).

(** [getCachedListings(key)] at the instant [now]; [fresh] is what
  [getListingsFromDatabase()] would return.  The result is [None] when
  [JSON.parse] throws.  An empty cached string counts as a miss. *)
Definition getCachedListings (fresh : Data) (now : Z) (key : string) (r : Redis)
    : option Data * Redis :=
  match redis_get now key r with
  | Some cached =>
      if decide (cached = "")
      then (Some fresh, redis_setex now key 300 (stringify fresh) r)
      else (parse cached, r)
  | None => (Some fresh, redis_setex now key 300 (stringify fresh) r)
  end.

End cached.

End Cache.

(** ** Sign-up *)

Module Auth.

Record SignUpCredentials := mkSignUpCredentials {
  email : string;
  password : string;
  name : option string
}.

Inductive Failure :=
| InvalidCredentials          (* [signUpSchema.parse] threw *)
| UserAlreadyExists           (* [new Error('User already exists')] *)
| CreateFailed (e : Db.Error) (* [prisma.user.create] threw *)
| MailFailed.                 (* [sendVerificationEmail] threw *)

Section signUp.
(** What the sources leave to other modules: the schema of the credentials,
  [bcrypt.hash], and whether [EmailService.sendVerificationEmail] returns. *)
Variables (signUpSchema : SignUpCredentials → option SignUpCredentials)
          (bcrypt_hash : string → Z → string)
          (sendVerificationEmail : string → User.t → bool).

(** [prisma.user.findUnique({ where: { email } })] *)
Definition findUnique_email (e : string) (db : Db.t) : Prop :=
  map_Exists (λ _ u, User.email u = e) (Db.users db).

#[global] Instance findUnique_email_dec e db : Decision (findUnique_email e db).
Proof. unfold findUnique_email. apply _. Defined.

(** The row that [prisma.user.create] writes for
  [{ email, name, hashedPassword }]: the other columns take their defaults. *)
Definition new_user (validated : SignUpCredentials) (now : Z) : User.t :=
  {| User.email := email validated;
     User.name := name validated;
     User.image := None;
     User.emailVerified := None;
     User.hashedPassword := Some (bcrypt_hash (password validated) 12);
     User.favoriteIds := [];
     User.createdAt := now;
     User.updatedAt := now |}.

(** [AuthService.signUp(credentials)]; [id] is the [cuid()] of the new row
  and [now] the instant of the insert.  Nothing is rolled back when a later
  step throws. *)
Definition signUp (credentials : SignUpCredentials) (id : string) (now : Z)
    (db : Db.t) : Db.t * (Failure + string * User.t) :=
  match signUpSchema credentials with
  | None => (db, inl InvalidCredentials)
  | Some validated =>
      if decide (findUnique_email (email validated) db)
      then (db, inl UserAlreadyExists)
      else
        let u := new_user validated now in
        match Db.createUser id u db with
        | Db.Err e => (db, inl (CreateFailed e))
        | Db.Ok db' =>
            if sendVerificationEmail id u
            then (db', inr (id, u))
            else (db', inl MailFailed)
        end
  end.

End signUp.

End Auth.

(** ** Creates and the deletes that take them back *)

Module Undo.

(** The delete of the row that a create writes. *)
Definition delete_of (op : Db.Op) : option Db.Op :=
  match op with
  | Db.CreateUser id _ => Some (Db.DeleteUser id)
  | Db.CreateAccount id _ => Some (Db.DeleteAccount id)
  | Db.CreateListing id _ => Some (Db.DeleteListing id)
  | Db.CreateReservation id _ => Some (Db.DeleteReservation id)
  | Db.CreateReview id _ => Some (Db.DeleteReview id)
  | Db.CreateAmenity id _ => Some (Db.DeleteAmenity id)
  | Db.CreatePayment id _ => Some (Db.DeletePayment id)
  | _ => None
  end.

End Undo.

(** ** Concrete inputs of the further examples *)

Module Samples.

(** A document after a browser extension went over it. *)
Definition touched_page : list Layout.Element :=
  [ Layout.mkElement "body" [("class", "font"); ("bis_register", "W3sibWFzdGVyIjp0cnVlfV0")];
    Layout.mkElement "div" [("bis_skin_checked", "1"); ("class", "pb-20 pt-28");
                            ("__processed_7f3a__", "true"); ("data-arp", "")];
    Layout.mkElement "span" [] ].

Definition plain_page : list Layout.Element :=
  [ Layout.mkElement "body" [("class", "font")];
    Layout.mkElement "div" [("class", "pb-20 pt-28"); ("data-testid", "main")] ].

(** A store whose user type is the email of the user. *)
Definition store : Store.AppState string unit string string :=
  Store.initial tt.

(** A body that [createListingSchema] accepts when the image is a URL. *)
Definition listing_body : Api.json :=
  Api.JObj [("title", Api.JStr "Loft");
            ("description", Api.JStr "A loft by the river");
            ("category", Api.JStr "apartment");
            ("roomCount", Api.JNum 2);
            ("bathroomCount", Api.JNum 1);
            ("guestCount", Api.JNum 4);
            ("locationValue", Api.JStr "PT");
            ("price", Api.JNum 120);
            ("imageSrc", Api.JArr [Api.JStr "https://img/1"]);
            ("isAdmin", Api.JBool true)].

Definition any_text : string → bool := λ _, true.

(** A catalog of three listings of one host, one of them with wifi and a
  review. *)
Definition flat : Listing.t :=
  Listing.mk "Flat" "A flat in the old town" ["https://img/2"] "apartment"
             1 1 2 "PT" 120 "host" 10 10.
Definition villa : Listing.t :=
  Listing.mk "Villa" "A villa with a garden" ["https://img/3"] "house"
             5 3 10 "PT" 300 "host" 30 30.
Definition studio : Listing.t :=
  Listing.mk "Studio" "A studio near the beach" ["https://img/4"] "apartment"
             1 1 2 "ES" 80 "host" 20 20.

Definition catalog : Db.t :=
  Db.run [Db.CreateUser "host" Scenario.host; Db.CreateUser "guest" Scenario.guest;
          Db.CreateListing "L1" flat; Db.CreateListing "L2" villa;
          Db.CreateListing "L3" studio;
          Db.CreateAmenity "a1" (Amenity.mk "wifi" "wifi-icon" "basics");
          Db.ConnectAmenity "a1" "L1";
          Db.CreateReview "v1" (Review.mk 4 None "guest" "L1" 40 40)]
         Db.empty.

(** Two listings created at the same instant. *)
Definition twin : Listing.t :=
  Listing.mk "Twin" "A flat next to the other" ["https://img/5"] "apartment"
             1 1 2 "PT" 125 "host" 10 10.

Definition twins : Db.t :=
  Db.run [Db.CreateUser "host" Scenario.host;
          Db.CreateListing "L1" flat; Db.CreateListing "L4" twin]
         Db.empty.

(** A serialisation for the cache examples: the data is a text, kept between
  brackets. *)
Definition bracket (data : string) : string := "[" +:+ data +:+ "]".
Definition unbracket (text : string) : option string :=
  if String.prefix "[" text
  then Some (String.substring 1 (String.length text - 2) text)
  else None.

(** Sign-up examples: any credentials pass, the hash is a tagged copy, and
  the mail goes out for every address but one. *)
Definition accept_all : Auth.SignUpCredentials → option Auth.SignUpCredentials := Some.
Definition tagged_hash (password : string) (cost : Z) : string := "$2b$" +:+ password.
Definition mail_unless_bounce (id : string) (u : User.t) : bool :=
  bool_decide (User.email u ≠ "bounce@example.com").
Definition bouncer : Auth.SignUpCredentials :=
  Auth.mkSignUpCredentials "bounce@example.com" "hunter2" None.

Definition apartments : Search.SearchFilters :=
  Search.mkSearchFilters (Some "apartment") None None None None.

End Samples.

(** * Properties *)

(** ** The overlap test and the availability checker *)

Section availability.
Import Availability.
Implicit Types (a b : Interval) (l : string) (rs : gmap string Reservation.t).

Lemma overlaps_spec a b :
  overlaps a b = true ↔ start a < stop b ∧ start b < stop a.
Proof. unfold overlaps. rewrite andb_true_iff, !Z.ltb_lt. done. Qed.

Lemma overlaps_false a b :
  overlaps a b = false ↔ stop b ≤ start a ∨ stop a ≤ start b.
Proof. unfold overlaps. rewrite andb_false_iff, !Z.ltb_ge. done. Qed.

Lemma overlaps_sym a b : overlaps a b = overlaps b a.
Proof. unfold overlaps. apply andb_comm. Qed.

Lemma lookup_conflicts l a rs i r :
  conflicts l a rs !! i = Some r ↔
  rs !! i = Some r ∧ active_on l r ∧ overlaps a (interval_of r) = true.
Proof.
  unfold conflicts, existing. rewrite !map_lookup_filter_Some. simpl. tauto.
Qed.

Lemma conflicts_empty l a rs :
  conflicts l a rs = ∅ ↔
  ∀ i r, rs !! i = Some r → active_on l r → overlaps a (interval_of r) = false.
Proof.
  rewrite map_empty. split.
  - intros Hnone i r Hi Hact. specialize (Hnone i).
    destruct (overlaps a (interval_of r)) eqn:Hov; [|done].
    assert (conflicts l a rs !! i = Some r) as Hin by (by apply lookup_conflicts).
    congruence.
  - intros Hall i. destruct (conflicts l a rs !! i) as [r|] eqn:Hi; [|done].
    apply lookup_conflicts in Hi as (Hi & Hact & Hov).
    rewrite (Hall i r Hi Hact) in Hov. done.
Qed.

Lemma checkAvailability_invalid l a rs :
  checkAvailability l a rs = InvalidInput ↔ stop a ≤ start a.
Proof.
  unfold checkAvailability. repeat case_decide; split; intros; try done; lia.
Qed.

Lemma checkAvailability_available l a rs :
  checkAvailability l a rs = Available ↔
  start a < stop a ∧
  ∀ i r, rs !! i = Some r → active_on l r → overlaps a (interval_of r) = false.
Proof.
  unfold checkAvailability. rewrite <-conflicts_empty.
  repeat case_decide; split; intros; try done; tauto.
Qed.

Lemma checkAvailability_conflicting l a rs cs :
  checkAvailability l a rs = Conflicting cs ↔
  start a < stop a ∧ cs = conflicts l a rs ∧ cs ≠ ∅.
Proof.
  unfold checkAvailability. split.
  - repeat case_decide; intros; simplify_eq; done.
  - intros (Hvalid & -> & Hne). by rewrite decide_True, decide_False.
Qed.

(** C1. For a candidate interval [a] and an existing non-cancelled
  reservation [r] of the same listing, the overlap test is true exactly when
  [a.start < r.end] and [r.start < a.end]; and for a well-formed candidate the
  checker reports [r] among the conflicts exactly in that case. *)
Theorem overlap_test_is_half_open a l rs i r :
  rs !! i = Some r → active_on l r →
  (overlaps a (interval_of r) = true ↔
     start a < Reservation.endDate r ∧ Reservation.startDate r < stop a) ∧
  (start a < stop a →
     ((∃ cs, checkAvailability l a rs = Conflicting cs ∧ cs !! i = Some r) ↔
      start a < Reservation.endDate r ∧ Reservation.startDate r < stop a)).
Proof.
  intros Hi Hact. split; [apply overlaps_spec|]. intros Hvalid.
  rewrite <-(overlaps_spec a (interval_of r)). split.
  - intros (cs & Hcs & Hin). apply checkAvailability_conflicting in Hcs as (_ & -> & _).
    by apply lookup_conflicts in Hin as (_ & _ & ?).
  - intros Hov. exists (conflicts l a rs).
    assert (conflicts l a rs !! i = Some r) as Hin by (by apply lookup_conflicts).
    split; [|done]. apply checkAvailability_conflicting.
    split_and!; [done..|]. intros Hempty. by rewrite Hempty in Hin.
Qed.

(** C3. A candidate with [start >= end] is rejected as invalid input whatever
  the existing reservations are. *)
Theorem inverted_or_empty_rejected l a rs :
  stop a ≤ start a →
  checkAvailability l a rs = InvalidInput ∧
  ∀ rs', checkAvailability l a rs' = checkAvailability l a rs.
Proof.
  intros Hinv. split; [by apply checkAvailability_invalid|].
  intros rs'. by rewrite !(proj2 (checkAvailability_invalid _ _ _) Hinv).
Qed.

(** C4. Adjacent intervals never overlap, and a well-formed candidate that is
  adjacent to every non-cancelled reservation of the listing is reported as
  available. *)
Theorem adjacent_is_available a :
  (∀ b, start a = stop b ∨ start b = stop a → overlaps a b = false) ∧
  (∀ l rs,
     start a < stop a →
     (∀ i r, rs !! i = Some r → active_on l r →
             start a = Reservation.endDate r ∨ Reservation.startDate r = stop a) →
     checkAvailability l a rs = Available).
Proof.
  assert (∀ b, start a = stop b ∨ start b = stop a → overlaps a b = false) as Hadj.
  { intros b Hb. apply overlaps_false. lia. }
  split; [done|]. intros l rs Hvalid Hall.
  apply checkAvailability_available. split; [done|].
  intros i r Hi Hact. apply Hadj. apply (Hall i r Hi Hact).
Qed.

End availability.

Lemma overlap_test_is_half_open_witness :
  ∃ cs, Availability.checkAvailability "L" Scenario.overlapping_request Scenario.booked
          = Availability.Conflicting cs ∧
        cs !! "r1" = Some Scenario.stay.
Proof.
  apply (overlap_test_is_half_open Scenario.overlapping_request "L"
           Scenario.booked "r1" Scenario.stay).
  - reflexivity.
  - split; [reflexivity | discriminate].
  - vm_compute. reflexivity.
  - vm_compute. split; reflexivity.
Defined.

Lemma inverted_or_empty_rejected_witness :
  Availability.checkAvailability "L" Scenario.inverted_request Scenario.booked
    = Availability.InvalidInput.
Proof.
  apply (inverted_or_empty_rejected "L" Scenario.inverted_request Scenario.booked).
  vm_compute. discriminate.
Defined.

Lemma adjacent_is_available_witness :
  Availability.checkAvailability "L" Scenario.adjacent_request Scenario.booked
    = Availability.Available.
Proof.
  apply (adjacent_is_available Scenario.adjacent_request).
  - vm_compute. reflexivity.
  - intros i r Hi _. unfold Scenario.booked in Hi.
    apply lookup_singleton_Some in Hi as [_ <-]. left. reflexivity.
Defined.

(** ** Cascading deletes and uniqueness constraints *)

Section database.
Import Db.

Lemma lookup_remove {A} (gone : gset string) (tbl : gmap string A) i r :
  remove gone tbl !! i = Some r ↔ tbl !! i = Some r ∧ i ∉ gone.
Proof. unfold remove. by rewrite map_lookup_filter_Some. Qed.

Lemma remove_subseteq {A} (gone : gset string) (tbl : gmap string A) :
  remove gone tbl ⊆ tbl.
Proof. apply map_filter_subseteq. Qed.

Lemma elem_of_referencing {A} (fk : A → string) gone (tbl : gmap string A) i :
  i ∈ referencing fk gone tbl ↔ ∃ r, tbl !! i = Some r ∧ fk r ∈ gone.
Proof.
  unfold referencing. rewrite elem_of_dom. unfold is_Some.
  by setoid_rewrite map_lookup_filter_Some.
Qed.

(** After the rows referencing [gone] are removed, no row references [gone]. *)
Lemma remove_referencing {A} (fk : A → string) gone (tbl : gmap string A) i r :
  remove (referencing fk gone tbl) tbl !! i = Some r → fk r ∉ gone.
Proof.
  rewrite lookup_remove, elem_of_referencing. intros [Hi Hnot] Hin.
  apply Hnot. eauto.
Qed.

Lemma remove_singleton {A} (tbl : gmap string A) i :
  remove {[i]} tbl !! i = None.
Proof.
  destruct (remove {[i]} tbl !! i) as [r|] eqn:Hi; [|done].
  apply lookup_remove in Hi as [_ Hi]. set_solver.
Qed.

(** C5. Deleting an existing user succeeds, and afterwards the user is gone
  together with every listing they own, every reservation they made and every
  review they wrote. *)
Theorem deleteUser_cascades (u : string) (d : Db.t) :
  is_Some (users d !! u) →
  ∃ d', deleteUser u d = Ok d' ∧
    users d' !! u = None ∧
    (∀ i r, listings d' !! i = Some r → Listing.userId r ≠ u) ∧
    (∀ i r, reservations d' !! i = Some r → Reservation.userId r ≠ u) ∧
    (∀ i r, reviews d' !! i = Some r → Review.userId r ≠ u).
Proof.
  intros Hu. exists (drop_users {[u]} d).
  unfold deleteUser, delete_from. rewrite decide_True by done.
  split; [done|]. cbn. split_and!.
  - apply remove_singleton.
  - intros i r Hi Hr. apply remove_referencing in Hi. set_solver.
  - intros i r Hi Hr. apply remove_referencing in Hi. set_solver.
  - intros i r Hi Hr. apply remove_referencing in Hi. set_solver.
Qed.

(** The other owning record of the lifecycle: deleting an existing listing
  removes its reservations and its reviews. *)
Lemma deleteListing_cascades (l : string) (d : Db.t) :
  is_Some (listings d !! l) →
  ∃ d', deleteListing l d = Ok d' ∧
    listings d' !! l = None ∧
    (∀ i r, reservations d' !! i = Some r → Reservation.listingId r ≠ l) ∧
    (∀ i r, reviews d' !! i = Some r → Review.listingId r ≠ l).
Proof.
  intros Hl. exists (drop_listings {[l]} d).
  unfold deleteListing, delete_from. rewrite decide_True by done.
  split; [done|]. cbn. split_and!.
  - apply remove_singleton.
  - intros i r Hi Hr. apply remove_referencing in Hi. set_solver.
  - intros i r Hi Hr. apply remove_referencing in Hi. set_solver.
Qed.

(** The delete of a user removes nothing but its cascade: a listing of
  another owner stays, and so does a review of another user on a listing of
  another owner. *)
Lemma deleteUser_keeps_listing u d i r :
  listings d !! i = Some r → Listing.userId r ≠ u →
  listings (drop_users {[u]} d) !! i = Some r.
Proof.
  intros Hi Hne. cbn. apply lookup_remove. split; [done|].
  rewrite elem_of_referencing. intros (r' & Hr' & Hin). set_solver.
Qed.

Lemma deleteUser_keeps_review u d i r o :
  reviews d !! i = Some r → Review.userId r ≠ u →
  listings d !! Review.listingId r = Some o → Listing.userId o ≠ u →
  reviews (drop_users {[u]} d) !! i = Some r.
Proof.
  intros Hi Hne Ho Hone. cbn. apply lookup_remove. split.
  - apply lookup_remove. split; [done|].
    rewrite elem_of_referencing. intros (r' & Hr' & Hin). simplify_eq.
    apply elem_of_referencing in Hin as (o' & Ho' & Hin). set_solver.
  - rewrite elem_of_referencing. intros (r' & Hr' & Hin).
    apply lookup_remove in Hr' as [Hr' _]. set_solver.
Qed.

Ltac unfold_ops :=
  unfold createUser, createAccount, createListing, createReservation,
    createReview, createAmenity, createPayment,
    updateUser, updateAccount, updateListing, updateReservation,
    updateReview, updateAmenity, updatePayment,
    deleteUser, deleteAccount, deleteListing, deleteReservation,
    deleteReview, deleteAmenity, deletePayment,
    connectAmenity, disconnectAmenity,
    create, update, delete_from,
    write_user, write_account, write_listing, write_reservation,
    write_review, write_amenity, write_payment in *.

(** *** Foreign keys *)

Lemma refs_insert_child {C P} (fk : C → string) (c : gmap string C)
    (p : gmap string P) i r :
  is_Some (p !! fk r) → refs fk c p → refs fk (<[i:=r]> c) p.
Proof.
  intros Hr Hc j r' Hj.
  apply lookup_insert_Some in Hj as [[_ <-]|[_ Hj]]; [done|by eapply Hc].
Qed.

Lemma refs_insert_parent {C P} (fk : C → string) (c : gmap string C)
    (p : gmap string P) i x :
  refs fk c p → refs fk c (<[i:=x]> p).
Proof.
  intros Hc j r Hj. rewrite lookup_insert_is_Some'. right. by eapply Hc.
Qed.

Lemma refs_remove_child {C P} (fk : C → string) (c : gmap string C)
    (p : gmap string P) gone :
  refs fk c p → refs fk (remove gone c) p.
Proof. intros Hc j r [Hj _]%lookup_remove. by eapply Hc. Qed.

(** Parents in [gone] are removed together with the children that reference
  them. *)
Lemma refs_cascade {C P} (fk : C → string) (c : gmap string C)
    (p : gmap string P) gone :
  refs fk c p → refs fk (remove (referencing fk gone c) c) (remove gone p).
Proof.
  intros Hc j r Hj. pose proof (remove_referencing _ _ _ _ _ Hj) as Hkeep.
  apply lookup_remove in Hj as [Hj _].
  destruct (Hc j r Hj) as [x Hx]. exists x. by apply lookup_remove.
Qed.

Lemma refs_remove_parent {C P} (fk : C → string) (c : gmap string C)
    (p : gmap string P) gone :
  (∀ i r, c !! i = Some r → fk r ∉ gone) →
  refs fk c p → refs fk c (remove gone p).
Proof.
  intros Hkeep Hc j r Hj. destruct (Hc j r Hj) as [x Hx].
  exists x. apply lookup_remove. split; [done|]. by eapply Hkeep.
Qed.

Ltac integrity H :=
  destruct H; constructor; cbn;
  eauto using refs_insert_child, refs_insert_parent, refs_remove_child, refs_cascade.

Lemma drop_payments_integrity gone d :
  referential_integrity d → referential_integrity (drop_payments gone d).
Proof. intros H. integrity H. Qed.

Lemma drop_reviews_integrity gone d :
  referential_integrity d → referential_integrity (drop_reviews gone d).
Proof. intros H. integrity H. Qed.

Lemma drop_accounts_integrity gone d :
  referential_integrity d → referential_integrity (drop_accounts gone d).
Proof. intros H. integrity H. Qed.

Lemma drop_reservations_integrity gone d :
  referential_integrity d → referential_integrity (drop_reservations gone d).
Proof. intros H. integrity H. Qed.

Lemma drop_listings_integrity gone d :
  referential_integrity d → referential_integrity (drop_listings gone d).
Proof.
  intros H. unfold drop_listings, drop_reservations, drop_reviews, drop_payments.
  integrity H.
  intros a l [Hkeep Hin]%elem_of_filter. cbn in Hkeep.
  destruct (relation_rows0 a l Hin) as [Ha [x Hx]]. split; [done|].
  exists x. by apply lookup_remove.
Qed.

Lemma drop_users_integrity gone d :
  referential_integrity d → referential_integrity (drop_users gone d).
Proof.
  intros H. unfold drop_users.
  pose proof (drop_accounts_integrity (referencing Account.userId gone (accounts d)) d H) as H1.
  set (d1 := drop_accounts _ d) in *.
  pose proof (drop_listings_integrity (referencing Listing.userId gone (listings d1)) d1 H1) as H2.
  set (d2 := drop_listings _ d1) in *.
  pose proof (drop_reservations_integrity
                (referencing Reservation.userId gone (reservations d2)) d2 H2) as H3.
  set (d3 := drop_reservations _ d2) in *.
  pose proof (drop_reviews_integrity (referencing Review.userId gone (reviews d3)) d3 H3) as H4.
  set (d4 := drop_reviews _ d3) in *.
  destruct H4. constructor; cbn; try done.
  - apply refs_remove_parent; [|done].
    apply (remove_referencing Account.userId gone (accounts d)).
  - apply refs_remove_parent; [|done].
    apply (remove_referencing Listing.userId gone (listings d1)).
  - apply refs_remove_parent; [|done].
    apply (remove_referencing Reservation.userId gone (reservations d2)).
  - apply refs_remove_parent; [|done].
    apply (remove_referencing Review.userId gone (reviews d3)).
Qed.

Lemma drop_amenities_integrity gone d :
  referential_integrity d → referential_integrity (drop_amenities gone d).
Proof.
  intros H. unfold drop_amenities. integrity H.
  intros a l [Hkeep Hin]%elem_of_filter. cbn in Hkeep.
  destruct (relation_rows0 a l Hin) as [[x Hx] Hl]. split; [|done].
  exists x. by apply lookup_remove.
Qed.

Lemma empty_integrity : referential_integrity empty.
Proof.
  constructor; cbn; try (intros i r Hi; by rewrite lookup_empty in Hi).
  intros a l Hin. set_solver.
Qed.

(** No operation leaves a dangling foreign key. *)
Lemma apply_integrity op d d' :
  apply op d = Ok d' → referential_integrity d → referential_integrity d'.
Proof.
  intros Hop H. destruct op; cbn in Hop; unfold_ops;
    repeat case_decide; simplify_eq;
    try (first [ apply drop_users_integrity | apply drop_accounts_integrity
               | apply drop_listings_integrity | apply drop_reservations_integrity
               | apply drop_reviews_integrity | apply drop_amenities_integrity
               | apply drop_payments_integrity ]; exact H).
  all: destruct_and?; integrity H; intros a l Hin.
  1-4: destruct (relation_rows0 a l Hin) as [Ha Hl];
       split; rewrite ?lookup_insert_is_Some'; eauto.
  - apply elem_of_union in Hin as [Hin|Hin]; [|eauto].
    apply elem_of_singleton in Hin. by simplify_eq.
  - apply elem_of_difference in Hin as [Hin _]. eauto.
Qed.

Lemma reachable_integrity d : reachable d → referential_integrity d.
Proof.
  induction 1 as [|d op d' _ IH Hop]; [apply empty_integrity|].
  by eapply apply_integrity.
Qed.

(** *** The unique columns *)

Lemma unique_on_subseteq {A} (same : A → A → Prop) (t t' : gmap string A) :
  t' ⊆ t → unique_on same t → unique_on same t'.
Proof.
  intros Hsub Hu i j r1 r2 Hi Hj. apply (Hu i j r1 r2).
  - by eapply lookup_weaken.
  - by eapply lookup_weaken.
Qed.

Lemma unique_on_insert {A} (same : A → A → Prop) `{!Symmetric same}
    (t : gmap string A) id r :
  unique_for same id r t → unique_on same t → unique_on same (<[id:=r]> t).
Proof.
  intros Hfor Hu i j r1 r2 Hi Hj Hsame.
  apply lookup_insert_Some in Hi as [[<- <-]|[Hni Hi]];
    apply lookup_insert_Some in Hj as [[<- <-]|[Hnj Hj]]; try done.
  - symmetry. apply (Hfor j r2 Hj). by symmetry.
  - by apply (Hfor i r1 Hi).
  - by apply (Hu i j r1 r2).
Qed.

#[local] Instance same_user_listing_sym : Symmetric same_user_listing.
Proof. intros a b [??]. by split. Qed.

#[local] Instance same_reservation_sym : Symmetric same_reservation.
Proof. intros a b ?. done. Qed.

Lemma table_step_unique_on {A} (same : A → A → Prop) `{!Symmetric same} t t' :
  table_step same t t' → unique_on same t → unique_on same t'.
Proof.
  intros [Hsub|(id & r & Hfor & ->)] Hu.
  - by eapply unique_on_subseteq.
  - by apply unique_on_insert.
Qed.

Ltac shrinks :=
  first [ reflexivity
        | apply remove_subseteq
        | etrans; [apply remove_subseteq|]; shrinks ].

Ltac table_steps :=
  intros Hop; destruct_op Hop; cbn in Hop; unfold_ops;
  repeat case_decide; simplify_eq; cbn;
  first [ left; shrinks | right; eauto ]
with destruct_op Hop :=
  match type of Hop with apply ?op _ = _ => destruct op end.

Lemma apply_reviews op d d' :
  apply op d = Ok d' → table_step same_user_listing (reviews d) (reviews d').
Proof. table_steps. Qed.

Lemma apply_payments op d d' :
  apply op d = Ok d' → table_step same_reservation (payments d) (payments d').
Proof. table_steps. Qed.

Lemma reachable_one_review d : reachable d → one_review_per_user_listing d.
Proof.
  induction 1 as [|d op d' _ IH Hop].
  - intros i j r1 r2 Hi. cbn in Hi. by rewrite lookup_empty in Hi.
  - eapply table_step_unique_on; [apply _|by eapply apply_reviews|done].
Qed.

Lemma reachable_one_payment d : reachable d → one_payment_per_reservation d.
Proof.
  induction 1 as [|d op d' _ IH Hop].
  - intros i j r1 r2 Hi. cbn in Hi. by rewrite lookup_empty in Hi.
  - eapply table_step_unique_on; [apply _|by eapply apply_payments|done].
Qed.

Lemma reachable_exec op d : reachable d → reachable (exec op d).
Proof.
  intros Hd. unfold exec. destruct (apply op d) as [d'|e] eqn:Hop; [|done].
  by eapply reachable_step.
Qed.

Lemma reachable_run ops d : reachable d → reachable (run ops d).
Proof.
  revert d. induction ops as [|op ops IH]; intros d Hd; [done|].
  cbn. apply IH. by apply reachable_exec.
Qed.

(** A create that would give a second review to a (user, listing) pair is a
  conflict, whatever [@id] it comes with. *)
Lemma createReview_duplicate d id r i r0 :
  reviews d !! i = Some r0 → same_user_listing r0 r →
  createReview id r d = Err UniqueConstraintFailed.
Proof.
  intros Hi Hsame. unfold createReview, create, write_review.
  case_decide as Hid; [done|]. case_decide as Hfor; [|done].
  assert (i = id) as -> by (by apply (Hfor i r0)).
  destruct Hid. eauto.
Qed.

(** C6. In every state reached after any sequence of review-create attempts,
  a (user, listing) pair has at most one review; an attempt that duplicates
  the pair of a stored review fails with a uniqueness conflict and leaves the
  database as it was. *)
Theorem review_unique_per_user_listing (d : Db.t) (attempts : list (string * Review.t)) :
  reachable d →
  let d' := run (map (λ a, CreateReview a.1 a.2) attempts) d in
  one_review_per_user_listing d' ∧
  (∀ id r i r0,
     reviews d' !! i = Some r0 → same_user_listing r0 r →
     createReview id r d' = Err UniqueConstraintFailed ∧
     exec (CreateReview id r) d' = d').
Proof.
  intros Hd d'. split.
  - apply reachable_one_review. by apply reachable_run.
  - intros id r i r0 Hi Hsame.
    pose proof (createReview_duplicate d' id r i r0 Hi Hsame) as Hdup.
    split; [done|]. unfold exec. cbn. by rewrite Hdup.
Qed.

(** C9. In every reachable state a reservation has at most one payment, and
  deleting an existing reservation succeeds and leaves no payment that points
  to it. *)
Theorem payment_unique_and_cascades (d : Db.t) :
  reachable d →
  one_payment_per_reservation d ∧
  (∀ rid, is_Some (reservations d !! rid) →
     ∃ d', deleteReservation rid d = Ok d' ∧
       reservations d' !! rid = None ∧
       (∀ i p, payments d' !! i = Some p → Payment.reservationId p ≠ rid)).
Proof.
  intros Hd. split; [by apply reachable_one_payment|].
  intros rid Hrid. exists (drop_reservations {[rid]} d).
  unfold deleteReservation, delete_from. rewrite decide_True by done.
  split; [done|]. cbn. split.
  - apply remove_singleton.
  - intros i p Hi Hp. apply remove_referencing in Hi. set_solver.
Qed.

End database.

Lemma deleteUser_cascades_witness :
  ∃ d', Db.deleteUser "guest" Scenario.busy_market = Db.Ok d' ∧
    Db.users d' !! "guest" = None ∧
    (∀ i r, Db.listings d' !! i = Some r → Listing.userId r ≠ "guest") ∧
    (∀ i r, Db.reservations d' !! i = Some r → Reservation.userId r ≠ "guest") ∧
    (∀ i r, Db.reviews d' !! i = Some r → Review.userId r ≠ "guest").
Proof.
  apply (deleteUser_cascades "guest" Scenario.busy_market).
  vm_compute. eauto.
Defined.

Lemma review_unique_per_user_listing_witness :
  let d' := Db.run [Db.CreateReview "v1" Scenario.review1;
                    Db.CreateReview "v2" Scenario.review2] Scenario.market in
  Db.one_review_per_user_listing d' ∧
  (∀ id r i r0,
     Db.reviews d' !! i = Some r0 → Db.same_user_listing r0 r →
     Db.createReview id r d' = Db.Err Db.UniqueConstraintFailed ∧
     Db.exec (Db.CreateReview id r) d' = d').
Proof.
  apply (review_unique_per_user_listing Scenario.market
           [("v1", Scenario.review1); ("v2", Scenario.review2)]).
  unfold Scenario.market. apply reachable_run, Db.reachable_empty.
Defined.

Lemma payment_unique_and_cascades_witness :
  Db.one_payment_per_reservation Scenario.busy_market ∧
  (∀ rid, is_Some (Db.reservations Scenario.busy_market !! rid) →
     ∃ d', Db.deleteReservation rid Scenario.busy_market = Db.Ok d' ∧
       Db.reservations d' !! rid = None ∧
       (∀ i p, Db.payments d' !! i = Some p → Payment.reservationId p ≠ rid)).
Proof.
  apply (payment_unique_and_cascades Scenario.busy_market).
  unfold Scenario.busy_market, Scenario.market.
  apply reachable_run, reachable_run, Db.reachable_empty.
Defined.

(** The scenario databases hold what their definitions say. *)
Example busy_market_rows :
  Db.reservations Scenario.busy_market = {[ "r1" := Scenario.stay ]} ∧
  Db.reviews Scenario.busy_market = {[ "v1" := Scenario.review1 ]} ∧
  Db.payments Scenario.busy_market = {[ "p1" := Scenario.payment1 ]}.
Proof. cbv zeta. split_and!; vm_compute; reflexivity. Qed.

Example second_review_is_a_conflict :
  Db.createReview "v2" Scenario.review2 Scenario.busy_market
    = Db.Err Db.UniqueConstraintFailed.
Proof. vm_compute. reflexivity. Qed.

Example second_payment_is_a_conflict :
  Db.createPayment "p2" Scenario.payment1 Scenario.busy_market
    = Db.Err Db.UniqueConstraintFailed.
Proof. vm_compute. reflexivity. Qed.

Example guest_deleted :
  let d' := Db.exec (Db.DeleteUser "guest") Scenario.busy_market in
  Db.reservations d' = ∅ ∧ Db.reviews d' = ∅ ∧ Db.payments d' = ∅ ∧
  Db.listings d' = {[ "L" := Scenario.loft ]}.
Proof. cbv zeta. split_and!; vm_compute; reflexivity. Qed.

Example host_deleted :
  let d' := Db.exec (Db.DeleteUser "host") Scenario.busy_market in
  Db.listings d' = ∅ ∧ Db.reservations d' = ∅ ∧ Db.reviews d' = ∅ ∧
  Db.payments d' = ∅ ∧ dom (Db.users d') = {[ "guest"; "other" ]}.
Proof. cbv zeta. split_and!; vm_compute; reflexivity. Qed.

(** ** Booking: one attempt at a time, and two in flight *)

Section booking.
Import Availability Booking.

Lemma createReservation_ok d i r :
  Db.reservations d !! i = None →
  is_Some (Db.users d !! Reservation.userId r) →
  is_Some (Db.listings d !! Reservation.listingId r) →
  Db.createReservation i r d
    = Db.Ok (Db.set_reservations (<[i:=r]> (Db.reservations d)) d).
Proof.
  intros Hfresh Hu Hl. unfold Db.createReservation, Db.create, Db.write_reservation.
  rewrite decide_False by (rewrite Hfresh; by intros [??]).
  by rewrite decide_True.
Qed.

Lemma createReservation_inv d i r d' :
  Db.createReservation i r d = Db.Ok d' →
  Db.reservations d !! i = None ∧
  Db.reservations d' = <[i:=r]> (Db.reservations d).
Proof.
  unfold Db.createReservation, Db.create, Db.write_reservation.
  repeat case_decide; intros; simplify_eq. split; [|done].
  by apply eq_None_not_Some.
Qed.

(** Writing a row that overlaps no active row of its listing keeps the
  invariant. *)
Lemma no_double_booking_insert rs i r :
  rs !! i = None →
  (∀ j r', rs !! j = Some r' → active_on (Reservation.listingId r) r' →
           overlaps (interval_of r) (interval_of r') = false) →
  no_double_booking rs → no_double_booking (<[i:=r]> rs).
Proof.
  intros Hfresh Hfree Hinv j k r1 r2 Hj Hk Hne Hl Hs1 Hs2.
  apply lookup_insert_Some in Hj as [[<- <-]|[Hnj Hj]];
    apply lookup_insert_Some in Hk as [[<- <-]|[Hnk Hk]]; try done.
  - by apply (Hfree k r2).
  - rewrite overlaps_sym. by apply (Hfree j r1).
  - by apply (Hinv j k r1 r2).
Qed.

(** One attempt run on its own, the read query and then the insert, keeps
  the invariant: it books only what the check found free. *)
Lemma book_preserves_no_double_booking req d :
  no_double_booking (Db.reservations d) →
  no_double_booking (Db.reservations (book req d).1).
Proof.
  intros Hinv. unfold book, step. cbn.
  destruct (checkAvailability _ _ _) eqn:Hcheck; cbn; try done.
  destruct (Db.createReservation _ _ _) as [d'|e] eqn:Hins; cbn; [|done].
  apply createReservation_inv in Hins as [Hfresh ->].
  apply checkAvailability_available in Hcheck as [_ Hfree].
  apply no_double_booking_insert; done.
Qed.

(** After any number of attempts run one after the other. *)
Lemma bookings_in_turn_preserve reqs d :
  no_double_booking (Db.reservations d) →
  no_double_booking (Db.reservations (foldl (λ d req, (book req d).1) d reqs)).
Proof.
  revert d. induction reqs as [|req reqs IH]; intros d Hinv; [done|].
  cbn. apply IH. by apply book_preserves_no_double_booking.
Qed.

(** C8. Two attempts for overlapping dates on one listing, each of which the
  check finds available: under the schedule that runs both read queries
  before both inserts, both attempts pass the check and both rows are
  inserted, so the listing is double-booked. *)
Theorem race_double_books (a b : Request) (d : Db.t) :
  listingId a = listingId b → id a ≠ id b →
  overlaps (candidate a) (candidate b) = true →
  checkAvailability (listingId a) (candidate a) (Db.reservations d) = Available →
  checkAvailability (listingId b) (candidate b) (Db.reservations d) = Available →
  Db.reservations d !! id a = None → Db.reservations d !! id b = None →
  is_Some (Db.users d !! userId a) → is_Some (Db.users d !! userId b) →
  is_Some (Db.listings d !! listingId a) →
  let checked := interleave a b [First; Second] (init d) in
  let s := interleave a b racy (init d) in
  checked = mkSystem d (Checked Available) (Checked Available) ∧
  first s = Finished Booked ∧ second s = Finished Booked ∧
  Db.reservations (db s) !! id a = Some (row a) ∧
  Db.reservations (db s) !! id b = Some (row b) ∧
  ¬ no_double_booking (Db.reservations (db s)).
Proof.
  intros Hl Hid Hov Ha Hb Hfa Hfb Hua Hub Hla.
  unfold interleave, racy, init, sys_step, step. cbn.
  rewrite Ha, Hb. cbn.
  rewrite (createReservation_ok d (id a) (row a)) by done. cbn.
  rewrite createReservation_ok; cbn; [| by rewrite lookup_insert_ne | done | by rewrite <-Hl].
  assert (<[id b:=row b]> (<[id a:=row a]> (Db.reservations d)) !! id a = Some (row a)) as Hra.
  { rewrite lookup_insert_ne by done. apply lookup_insert_eq. }
  assert (<[id b:=row b]> (<[id a:=row a]> (Db.reservations d)) !! id b = Some (row b)) as Hrb.
  { apply lookup_insert_eq. }
  split_and!; try done.
  intros Hinv. specialize (Hinv (id a) (id b) (row a) (row b) Hra Hrb Hid Hl).
  cbn in Hinv. unfold interval_of in Hinv. cbn in Hinv.
  unfold candidate in Hov. rewrite Hinv in Hov; done.
Qed.

(** The same two attempts run one after the other: the second finds the
  row of the first and is rejected. *)
Lemma in_turn_second_rejected (a b : Request) (d : Db.t) :
  listingId a = listingId b →
  overlaps (candidate a) (candidate b) = true →
  checkAvailability (listingId a) (candidate a) (Db.reservations d) = Available →
  checkAvailability (listingId b) (candidate b) (Db.reservations d) = Available →
  Db.reservations d !! id a = None →
  is_Some (Db.users d !! userId a) → is_Some (Db.listings d !! listingId a) →
  let s := interleave a b [First; First; Second; Second] (init d) in
  first s = Finished Booked ∧
  ∃ cs, second s = Finished (Rejected (Conflicting cs)) ∧ cs !! id a = Some (row a).
Proof.
  intros Hl Hov Ha Hb Hfa Hua Hla.
  unfold interleave, init, sys_step, step. cbn.
  rewrite Ha. cbn.
  rewrite (createReservation_ok d (id a) (row a)) by done. cbn.
  split; [done|].
  set (rs := <[id a:=row a]> (Db.reservations d)).
  assert (conflicts (listingId b) (candidate b) rs !! id a = Some (row a)) as Hin.
  { apply lookup_conflicts. split_and!.
    - apply lookup_insert_eq.
    - split; [done|]. cbn. discriminate.
    - rewrite overlaps_sym. done. }
  assert (checkAvailability (listingId b) (candidate b) rs
          = Conflicting (conflicts (listingId b) (candidate b) rs)) as ->.
  { apply checkAvailability_conflicting. split_and!; [|done|].
    - by apply checkAvailability_available in Hb as [? _].
    - intros Hempty. by rewrite Hempty in Hin. }
  cbn. eauto.
Qed.

End booking.

Lemma race_double_books_witness :
  let checked := Booking.interleave Scenario.attempt1 Scenario.attempt2
                   [Booking.First; Booking.Second] (Booking.init Scenario.market) in
  let s := Booking.interleave Scenario.attempt1 Scenario.attempt2 Booking.racy
             (Booking.init Scenario.market) in
  checked = Booking.mkSystem Scenario.market (Booking.Checked Availability.Available)
              (Booking.Checked Availability.Available) ∧
  Booking.first s = Booking.Finished Booking.Booked ∧
  Booking.second s = Booking.Finished Booking.Booked ∧
  Db.reservations (Booking.db s) !! "r1" = Some (Booking.row Scenario.attempt1) ∧
  Db.reservations (Booking.db s) !! "r2" = Some (Booking.row Scenario.attempt2) ∧
  ¬ Booking.no_double_booking (Db.reservations (Booking.db s)).
Proof.
  apply (race_double_books Scenario.attempt1 Scenario.attempt2 Scenario.market).
  - reflexivity.
  - discriminate.
  - vm_compute. reflexivity.
  - vm_compute. reflexivity.
  - vm_compute. reflexivity.
  - vm_compute. reflexivity.
  - vm_compute. reflexivity.
  - vm_compute. eauto.
  - vm_compute. eauto.
  - vm_compute. eauto.
Defined.

(** ** The invariant and the writes of the storage layer *)

Section invariant.
Import Availability Booking.








End invariant.



(** ** The response helpers and the middleware *)

Section api.
Import Api.

Lemma unsigned_short_small n : 0 ≤ n < 65536 → unsigned_short n = n.
Proof. intros Hn. unfold unsigned_short. by apply Z.mod_small. Qed.

Lemma carries_body_small status : carries_body status → unsigned_short status = status.
Proof. intros [Hrange _]. apply unsigned_short_small. lia. Qed.

Lemma NextResponse_json_Returned j sc r :
  NextResponse_json j sc = Returned r ↔
  carries_body (unsigned_short sc) ∧ r = mkResponse (unsigned_short sc) (Json j).
Proof.
  unfold NextResponse_json, carries_body. cbv zeta.
  destruct (decide (200 ≤ unsigned_short sc ≤ 599)) as [Hrange|Hrange].
  - destruct (decide (unsigned_short sc ∈ null_body_status)) as [Hnull|Hnull].
    + split; [done|]. by intros [[_ ?] _].
    + split; [by intros [= <-] | by intros [_ ->]].
  - split; [done|]. by intros [[? _] _].
Qed.

Lemma NextResponse_json_Threw j sc t :
  NextResponse_json j sc = Threw t ↔
  let status := unsigned_short sc in
  (t = RangeError ∧ ¬ 200 ≤ status ≤ 599) ∨
  (t = TypeError ∧ 200 ≤ status ≤ 599 ∧ status ∈ null_body_status).
Proof.
  unfold NextResponse_json. cbv zeta.
  destruct (decide (200 ≤ unsigned_short sc ≤ 599)) as [Hrange|Hrange].
  - destruct (decide (unsigned_short sc ∈ null_body_status)) as [Hnull|Hnull].
    + split; [intros [= <-]; by right|]. by intros [[_ ?]|[-> _]].
    + split; [done|]. by intros [[_ ?]|[_ [_ ?]]].
  - split; [intros [= <-]; by left|]. by intros [[-> _]|[_ [? _]]].
Qed.

Lemma errorResponse_Returned e sc r :
  errorResponse e sc = Returned r ↔
  carries_body (unsigned_short (default 400 sc)) ∧
  r = mkResponse (unsigned_short (default 400 sc))
        (Json (JObj [("success", JBool false); ("error", JStr e)])).
Proof. apply NextResponse_json_Returned. Qed.

(** C10, as amended.  Called without a status code, [errorResponse] answers
  with status 400 and the body [{ success: false, error }]; called with a
  status code that a response with a body can be given, with that status and
  the same body, so every response it returns has exactly that body with the
  string it was given.  Called with another status code it throws and there
  is no response: a [RangeError] outside 200 to 599, a [TypeError] for 204,
  205 and 304. *)
Theorem errorResponse_defaults_to_400 (e : string) :
  errorResponse e None
    = Returned (mkResponse 400 (Json (JObj [("success", JBool false); ("error", JStr e)]))) ∧
  (∀ code, carries_body code →
     errorResponse e (Some code)
       = Returned (mkResponse code
                     (Json (JObj [("success", JBool false); ("error", JStr e)])))) ∧
  (∀ sc r, errorResponse e sc = Returned r →
     body r = Json (JObj [("success", JBool false); ("error", JStr e)]) ∧
     status r = unsigned_short (default 400 sc) ∧ carries_body (status r)) ∧
  (∀ sc, unsigned_short (default 400 sc) < 200 ∨ 599 < unsigned_short (default 400 sc) →
     errorResponse e sc = Threw RangeError) ∧
  (∀ code, code ∈ [204; 205; 304] →
     errorResponse e (Some code) = Threw TypeError).
Proof.
  split_and!.
  - reflexivity.
  - intros code Hcode. apply errorResponse_Returned. cbn.
    by rewrite (carries_body_small code).
  - intros sc r [Hok ->]%errorResponse_Returned. done.
  - intros sc Hout. apply NextResponse_json_Threw. left. split; [done|lia].
  - intros code Hnull.
    repeat (apply elem_of_cons in Hnull as [->|Hnull]; [reflexivity|]).
    by apply elem_of_nil in Hnull.
Qed.

Lemma POST_cases body implementation :
  (∃ result,
     POST body implementation
       = Returned (mkResponse 200
                     (Json (JObj [("success", JBool true); ("data", result)])))) ∨
  POST body implementation
    = Returned (mkResponse 400 (Json (JObj [("error", JStr "Invalid request data")]))).
Proof.
  unfold POST.
  destruct ((body ≫= createPropertySchema_parse) ≫= implementation); eauto.
Qed.

Lemma withRole_cases roles handler req :
  withRole roles handler req = handler req ∨
  withRole roles handler req
    = mkResponse 403 (Json (JObj [("error", JStr "Forbidden")])).
Proof.
  unfold withRole. destruct (user req); [case_decide|]; eauto.
Qed.

(** C7, as amended.  The responses the helpers, the route handler and the
  middleware build have one of two shapes.  The envelope: [successResponse]
  has [success] true and carries the data, with the message and the meta it
  was given and no error; every response that [errorResponse] returns has a
  body that is exactly [{ success: false, error }] with the error string
  unchanged, and it returns one, with the status code it was given, for
  every status code that a response with a body can be given, 400 by
  default; the route handler answers a success with status 200 and
  [{ success: true, data }].  Or an object [{ error }] with no [success]
  field and a fixed text: the route handler's 400, the 401 of [withAuth]
  and the 403 of [withRole]. *)
Theorem responses_follow_two_shapes :
  (∀ (d : json) (m : option string) (mt : option Meta),
     let r := successResponse d m mt in
     success r = true ∧ data r = Some d ∧ error r = None ∧
     message r = m ∧ meta r = mt ∧
     toJSON (successResponse d None None) = JObj [("success", JBool true); ("data", d)] ∧
     uniform_envelope (toJSON (successResponse d None None)) = true) ∧
  (∀ (e : string) (sc : option Z) (r : Response),
     errorResponse e sc = Returned r →
     body r = Json (JObj [("success", JBool false); ("error", JStr e)]) ∧
     has_uniform_envelope r = true ∧
     carries_body (status r)) ∧
  (∀ (e : string) (sc : option Z),
     carries_body (default 400 sc) →
     errorResponse e sc
       = Returned (mkResponse (default 400 sc)
                     (Json (JObj [("success", JBool false); ("error", JStr e)])))) ∧
  (∀ body implementation,
     ∃ r, POST body implementation = Returned r ∧
       ((status r = 200 ∧ has_uniform_envelope r = true ∧
         ∃ result, Api.body r = Json (JObj [("success", JBool true); ("data", result)])) ∨
        r = mkResponse 400 (Json (JObj [("error", JStr "Invalid request data")])))) ∧
  (∀ handler req,
     withAuth handler None req
       = mkResponse 401 (Json (JObj [("error", JStr "Unauthorized")]))) ∧
  (∀ roles handler req,
     withRole roles handler req = handler req ∨
     withRole roles handler req
       = mkResponse 403 (Json (JObj [("error", JStr "Forbidden")]))).
Proof.
  split_and!.
  - intros d m mt. cbn. split_and!; reflexivity.
  - intros e sc r [Hok ->]%errorResponse_Returned. done.
  - intros e sc Hok. apply errorResponse_Returned.
    by rewrite (carries_body_small (default 400 sc)).
  - intros b impl.
    destruct (POST_cases b impl) as [[result Hr] | Hr]; rewrite Hr;
      eexists; (split; [done|]); [left | right; done].
    cbn. split_and!; eauto.
  - reflexivity.
  - apply withRole_cases.
Qed.

End api.

(** C10, as stated, fails: called with the status 204 [errorResponse] throws,
  so that call has no body at all; so does a call with a status below
  200. *)
Lemma errorResponse_throws_for_204 :
  Api.errorResponse "boom" (Some 204) = Api.Threw Api.TypeError ∧
  Api.errorResponse "boom" (Some 42) = Api.Threw Api.RangeError ∧
  ¬ ∃ r, Api.errorResponse "boom" (Some 204) = Api.Returned r ∧
         Api.body r = Api.Json (Api.JObj [("success", Api.JBool false);
                                          ("error", Api.JStr "boom")]).
Proof.
  split_and!; [vm_compute; reflexivity..|].
  intros (r & Hr & _). vm_compute in Hr. discriminate Hr.
Qed.

Lemma errorResponse_defaults_to_400_witness :
  Api.errorResponse "boom" (Some 404)
    = Api.Returned (Api.mkResponse 404
        (Api.Json (Api.JObj [("success", Api.JBool false); ("error", Api.JStr "boom")]))).
Proof.
  destruct (errorResponse_defaults_to_400 "boom") as (_ & Hgiven & _).
  apply (Hgiven 404). split; [lia|]. vm_compute. intros Hin.
  repeat (apply elem_of_cons in Hin as [Hin|Hin]; [discriminate Hin|]).
  by apply elem_of_nil in Hin.
Defined.

(** C7, as stated, fails: the 400 of the route handler, the 401 of
  [withAuth] and the 403 of [withRole] have the body [{ error }] with no
  [success] field, the 429 of [withRateLimit] is plain text, and a success
  response that carries a message has a field outside the envelope. *)
Lemma not_every_response_is_enveloped :
  Api.POST (Some Scenario.free_body) Scenario.echo_title
    = Api.Returned
        (Api.mkResponse 400
           (Api.Json (Api.JObj [("error", Api.JStr "Invalid request data")]))) ∧
  Api.has_uniform_envelope
    (Api.mkResponse 400
       (Api.Json (Api.JObj [("error", Api.JStr "Invalid request data")]))) = false ∧
  Api.withAuth Scenario.ok_handler None Scenario.anonymous
    = Api.mkResponse 401 (Api.Json (Api.JObj [("error", Api.JStr "Unauthorized")])) ∧
  Api.has_uniform_envelope
    (Api.withAuth Scenario.ok_handler None Scenario.anonymous) = false ∧
  Api.has_uniform_envelope
    (Api.withRole ["admin"] Scenario.ok_handler Scenario.anonymous) = false ∧
  Api.withRateLimit Scenario.exhausted
    = Some (Api.mkResponse 429 (Api.Text "Too Many Requests")) ∧
  Api.uniform_envelope
    (Api.toJSON (Api.successResponse (Api.JStr "pong") (Some "created") None)) = false.
Proof. vm_compute. split_and!; reflexivity. Qed.

Example POST_accepts_loft :
  Api.POST (Some Scenario.loft_body) Scenario.echo_title
    = Api.Returned
        (Api.mkResponse 200
           (Api.Json (Api.JObj [("success", Api.JBool true); ("data", Api.JStr "Loft")]))).
Proof. vm_compute. reflexivity. Qed.

(** * Further properties of the sources *)

(** ** The schema: foreign keys, unique columns, deletes *)

Ltac unfold_db_ops :=
  unfold Db.createUser, Db.createAccount, Db.createListing, Db.createReservation,
    Db.createReview, Db.createAmenity, Db.createPayment,
    Db.updateUser, Db.updateAccount, Db.updateListing, Db.updateReservation,
    Db.updateReview, Db.updateAmenity, Db.updatePayment,
    Db.deleteUser, Db.deleteAccount, Db.deleteListing, Db.deleteReservation,
    Db.deleteReview, Db.deleteAmenity, Db.deletePayment,
    Db.connectAmenity, Db.disconnectAmenity,
    Db.create, Db.update, Db.delete_from,
    Db.write_user, Db.write_account, Db.write_listing, Db.write_reservation,
    Db.write_review, Db.write_amenity, Db.write_payment in *.

Ltac unfold_drops :=
  cbv beta iota zeta delta
    [Db.drop_users Db.drop_listings Db.drop_reservations Db.drop_accounts
     Db.drop_reviews Db.drop_amenities Db.drop_payments
     Db.set_users Db.set_accounts Db.set_listings Db.set_reservations
     Db.set_reviews Db.set_amenities Db.set_payments Db.set_amenityToListing
     Db.users Db.accounts Db.listings Db.reservations Db.reviews
     Db.amenities Db.payments Db.amenityToListing] in *.

Ltac fewer_rows :=
  first [ reflexivity
        | apply remove_subseteq
        | etrans; [apply remove_subseteq|]; fewer_rows ].

Ltac step_of_table :=
  let Hop := fresh "Hop" in
  intros Hop;
  match type of Hop with Db.apply ?op _ = _ => destruct op end;
  cbn in Hop; unfold_db_ops;
  repeat case_decide; simplify_eq; cbn;
  first [ left; fewer_rows | right; eauto ].

Section schema_properties.
Import Db.

#[local] Instance same_email_sym : Symmetric same_email.
Proof. intros a b ?. done. Qed.

#[local] Instance same_provider_account_sym : Symmetric same_provider_account.
Proof. intros a b [??]. by split. Qed.

#[local] Instance same_name_sym : Symmetric same_name.
Proof. intros a b ?. done. Qed.

Lemma apply_users op d d' :
  apply op d = Ok d' → table_step same_email (users d) (users d').
Proof. step_of_table. Qed.

Lemma apply_accounts op d d' :
  apply op d = Ok d' → table_step same_provider_account (accounts d) (accounts d').
Proof. step_of_table. Qed.

Lemma apply_amenities op d d' :
  apply op d = Ok d' → table_step same_name (amenities d) (amenities d').
Proof. step_of_table. Qed.

Lemma unique_on_empty {A} (same : A → A → Prop) : unique_on same (∅ : gmap string A).
Proof. intros i j r1 r2 Hi. by rewrite lookup_empty in Hi. Qed.

(** X1. In every reachable state every foreign key of the schema points to
  a stored row: an account, a listing, a reservation and a review have their
  user, a reservation and a review have their listing, a payment has its
  reservation, and a row of the listing-amenity relation has both ends. *)
Theorem foreign_keys_never_dangle (d : Db.t) :
  reachable d →
  (∀ i r, accounts d !! i = Some r → is_Some (users d !! Account.userId r)) ∧
  (∀ i r, listings d !! i = Some r → is_Some (users d !! Listing.userId r)) ∧
  (∀ i r, reservations d !! i = Some r →
     is_Some (users d !! Reservation.userId r) ∧
     is_Some (listings d !! Reservation.listingId r)) ∧
  (∀ i r, reviews d !! i = Some r →
     is_Some (users d !! Review.userId r) ∧
     is_Some (listings d !! Review.listingId r)) ∧
  (∀ i r, payments d !! i = Some r →
     is_Some (reservations d !! Payment.reservationId r)) ∧
  (∀ a l, (a, l) ∈ amenityToListing d →
     is_Some (amenities d !! a) ∧ is_Some (listings d !! l)).
Proof.
  intros Hd. destruct (reachable_integrity d Hd). split_and!; try done.
  - intros i r Hi. split; [by eapply reservation_user0|by eapply reservation_listing0].
  - intros i r Hi. split; [by eapply review_user0|by eapply review_listing0].
Qed.

(** X2. In every reachable state no two users share an email, no two
  accounts share a (provider, providerAccountId) pair, and no two amenities
  share a name. *)
Theorem unique_columns_hold (d : Db.t) :
  reachable d →
  unique_on same_email (users d) ∧
  unique_on same_provider_account (accounts d) ∧
  unique_on same_name (amenities d).
Proof.
  induction 1 as [|d op d' _ IH Hop].
  - split_and!; apply unique_on_empty.
  - destruct IH as (Hu & Ha & Hm). split_and!.
    + eapply table_step_unique_on; [apply _|by eapply apply_users|done].
    + eapply table_step_unique_on; [apply _|by eapply apply_accounts|done].
    + eapply table_step_unique_on; [apply _|by eapply apply_amenities|done].
Qed.

End schema_properties.

Section schema_deletes.
Import Db.

Lemma lookup_cascade {A} (fk : A → string) gone (tbl : gmap string A) i r :
  remove (referencing fk gone tbl) tbl !! i = Some r ↔
  tbl !! i = Some r ∧ fk r ∉ gone.
Proof.
  rewrite lookup_remove, elem_of_referencing. split.
  - intros [Hi Hnot]. split; [done|]. intros Hin. apply Hnot. eauto.
  - intros [Hi Hnot]. split; [done|]. intros (r' & Hr' & Hin). by simplify_eq.
Qed.

Lemma not_elem_of_referencing {A} (fk : A → string) gone (tbl : gmap string A) i :
  i ∉ referencing fk gone tbl ↔ ∀ r, tbl !! i = Some r → fk r ∉ gone.
Proof.
  rewrite elem_of_referencing. split.
  - intros Hnot r Hi Hfk. apply Hnot. eauto.
  - intros Hall (r & Hi & Hin). by apply (Hall r Hi).
Qed.

Lemma not_referencing_singleton {A} (fk : A → string) (u : string)
    (tbl : gmap string A) i :
  i ∉ referencing fk {[u]} tbl ↔ ∀ r, tbl !! i = Some r → fk r ≠ u.
Proof.
  rewrite elem_of_referencing. split.
  - intros Hnot r Hi Hfk. apply Hnot. exists r. split; [done|].
    by apply elem_of_singleton.
  - intros Hall (r & Hi & Hin%elem_of_singleton). by apply (Hall r Hi).
Qed.

(** X3. Deleting a user removes the rows that depend on the user and no
  other row: the user, their accounts and listings, the reservations and
  reviews that they made or that are on one of their listings, the payments
  of the reservations that go, and the amenity links of their listings.
  Every other row, and every amenity, stays as it was. *)
Theorem deleteUser_removes_exactly_dependents (u : string) (d d' : Db.t) :
  deleteUser u d = Ok d' →
  let theirs l := ∃ o, listings d !! l = Some o ∧ Listing.userId o = u in
  (∀ i x, users d' !! i = Some x ↔ users d !! i = Some x ∧ i ≠ u) ∧
  (∀ i r, accounts d' !! i = Some r ↔
          accounts d !! i = Some r ∧ Account.userId r ≠ u) ∧
  (∀ i r, listings d' !! i = Some r ↔
          listings d !! i = Some r ∧ Listing.userId r ≠ u) ∧
  (∀ i r, reservations d' !! i = Some r ↔
          reservations d !! i = Some r ∧ Reservation.userId r ≠ u ∧
          ¬ theirs (Reservation.listingId r)) ∧
  (∀ i r, reviews d' !! i = Some r ↔
          reviews d !! i = Some r ∧ Review.userId r ≠ u ∧
          ¬ theirs (Review.listingId r)) ∧
  (∀ i p, payments d' !! i = Some p ↔
          payments d !! i = Some p ∧
          (is_Some (reservations d !! Payment.reservationId p) →
           is_Some (reservations d' !! Payment.reservationId p))) ∧
  (∀ a l, (a, l) ∈ amenityToListing d' ↔
          (a, l) ∈ amenityToListing d ∧ ¬ theirs l) ∧
  amenities d' = amenities d.
Proof.
  intros Hdel theirs. unfold deleteUser, delete_from in Hdel.
  case_decide; [|done]. injection Hdel as <-.
  assert (∀ l, l ∉ referencing Listing.userId {[u]} (listings d) ↔ ¬ theirs l) as Htheirs.
  { intros l. rewrite not_referencing_singleton. unfold theirs. split.
    - intros Hall (o & Ho & Hu). by apply (Hall o).
    - intros Hnot o Ho Hu. apply Hnot. eauto. }
  clearbody theirs. cbn.
  assert (∀ i r,
    remove (referencing Reservation.userId {[u]}
              (remove (referencing Reservation.listingId
                         (referencing Listing.userId {[u]} (listings d))
                         (reservations d)) (reservations d)))
      (remove (referencing Reservation.listingId
                 (referencing Listing.userId {[u]} (listings d))
                 (reservations d)) (reservations d)) !! i = Some r ↔
    reservations d !! i = Some r ∧ Reservation.userId r ≠ u ∧
    ¬ theirs (Reservation.listingId r)) as Hres.
  { intros i r. rewrite !lookup_cascade, Htheirs, not_elem_of_singleton. tauto. }
  split_and!.
  - intros i x. by rewrite lookup_remove, not_elem_of_singleton.
  - intros i r. by rewrite lookup_cascade, not_elem_of_singleton.
  - intros i r. by rewrite lookup_cascade, not_elem_of_singleton.
  - done.
  - intros i r. rewrite !lookup_cascade, Htheirs, not_elem_of_singleton. tauto.
  - intros i p. rewrite !lookup_cascade.
    set (k := Payment.reservationId p).
    rewrite (not_elem_of_referencing Reservation.listingId),
            (not_elem_of_referencing Reservation.userId).
    setoid_rewrite lookup_cascade. unfold is_Some.
    setoid_rewrite Hres. setoid_rewrite Htheirs.
    destruct (reservations d !! k) as [r|] eqn:Hk.
    + split.
      * intros ((Hp & Hl) & Hu). split; [done|]. intros _. exists r.
        split; [done|]. split; [|by apply Hl].
        intros Hru. eapply Hu; [split; [done|by apply Hl]|].
        by apply elem_of_singleton.
      * intros (Hp & Hkeep). destruct Hkeep as (r' & Hr' & Hne & Hno); [eauto|].
        simplify_eq. split_and!; [done|..].
        -- intros r'' ?. by simplify_eq.
        -- intros r'' [? ?] ?%elem_of_singleton. by simplify_eq.
    + split.
      * intros ((Hp & _) & _). split; [done|]. by intros [r Hr].
      * intros (Hp & _). split_and!; [done|..].
        -- intros r Hr. done.
        -- intros r [Hr _]. done.
  - intros a l. rewrite elem_of_filter. cbn. rewrite Htheirs. tauto.
  - done.
Qed.

End schema_deletes.

Section schema_round_trip.
Import Db.

Lemma referencing_nothing {A} (fk : A → string) gone (tbl : gmap string A) :
  (∀ i r, tbl !! i = Some r → fk r ∉ gone) → referencing fk gone tbl = ∅.
Proof.
  intros Hnone. apply set_eq. intros i. rewrite elem_of_referencing. split.
  - intros (r & Hi & Hin). by destruct (Hnone i r Hi).
  - intros Hin. by apply not_elem_of_empty in Hin.
Qed.

Lemma referencing_empty {A} (fk : A → string) (tbl : gmap string A) :
  referencing fk ∅ tbl = ∅.
Proof. apply referencing_nothing. intros i r _. apply not_elem_of_empty. Qed.

Lemma remove_empty {A} (tbl : gmap string A) : remove ∅ tbl = tbl.
Proof.
  unfold remove. apply map_filter_id. intros i x _. apply not_elem_of_empty.
Qed.

Lemma remove_insert_fresh {A} (tbl : gmap string A) i x :
  tbl !! i = None → remove {[i]} (<[i:=x]> tbl) = tbl.
Proof.
  intros Hfresh. apply map_eq. intros j. apply option_eq. intros y.
  rewrite lookup_remove, lookup_insert_Some, not_elem_of_singleton. split.
  - intros [[[-> ->]|[_ Hj]] Hne]; done.
  - intros Hj. split; [right|]; [split|]; [|done|]; intros ->; congruence.
Qed.

Lemma keep_links_of_listings (links : gset (string * string)) (gone : gset string) :
  (∀ p, p ∈ links → p.2 ∉ gone) → filter (λ p, p.2 ∉ gone) links = links.
Proof.
  intros Hkeep. apply set_eq. intros p. rewrite elem_of_filter.
  split; [by intros [_ ?]|]. intros Hp. split; [by apply Hkeep|done].
Qed.

Lemma keep_links_of_amenities (links : gset (string * string)) (gone : gset string) :
  (∀ p, p ∈ links → p.1 ∉ gone) → filter (λ p, p.1 ∉ gone) links = links.
Proof.
  intros Hkeep. apply set_eq. intros p. rewrite elem_of_filter.
  split; [by intros [_ ?]|]. intros Hp. split; [by apply Hkeep|done].
Qed.

Lemma drop_payments_empty d : drop_payments ∅ d = d.
Proof. destruct d. unfold drop_payments, set_payments. cbn. by rewrite remove_empty. Qed.

Lemma drop_reviews_empty d : drop_reviews ∅ d = d.
Proof. destruct d. unfold drop_reviews, set_reviews. cbn. by rewrite remove_empty. Qed.

Lemma drop_accounts_empty d : drop_accounts ∅ d = d.
Proof. destruct d. unfold drop_accounts, set_accounts. cbn. by rewrite remove_empty. Qed.

Lemma drop_reservations_empty d : drop_reservations ∅ d = d.
Proof.
  unfold drop_reservations. cbv zeta. rewrite referencing_empty, drop_payments_empty.
  destruct d. unfold set_reservations. cbn. by rewrite remove_empty.
Qed.

Lemma drop_listings_empty d : drop_listings ∅ d = d.
Proof.
  unfold drop_listings. cbv zeta.
  rewrite !referencing_empty, drop_reservations_empty, drop_reviews_empty.
  destruct d. unfold set_listings, set_amenityToListing. cbn.
  rewrite remove_empty, keep_links_of_listings; [done|].
  intros p _. apply not_elem_of_empty.
Qed.

End schema_round_trip.

Section schema_undo.
Import Db.

Lemma nothing_points_to_fresh {C P} (fk : C → string) (c : gmap string C)
    (p : gmap string P) id :
  refs fk c p → p !! id = None → referencing fk {[id]} c = ∅.
Proof.
  intros Hrefs Hfresh. apply referencing_nothing.
  intros i r Hi Hin%elem_of_singleton.
  destruct (Hrefs i r Hi) as [x Hx]. congruence.
Qed.

Lemma links_of_fresh_listing {A B : Type} (links : gset (string * string))
    (am : gmap string A) (ls : gmap string B) id :
  (∀ a l, (a, l) ∈ links → is_Some (am !! a) ∧ is_Some (ls !! l)) →
  ls !! id = None → filter (λ p, p.2 ∉ ({[id]} : gset string)) links = links.
Proof.
  intros Hrows Hfresh. apply keep_links_of_listings.
  intros [a l] Hin Heq%elem_of_singleton. cbn in Heq. subst l.
  destruct (Hrows a id Hin) as [_ [x Hx]]. congruence.
Qed.

Lemma links_of_fresh_amenity {A B : Type} (links : gset (string * string))
    (am : gmap string A) (ls : gmap string B) id :
  (∀ a l, (a, l) ∈ links → is_Some (am !! a) ∧ is_Some (ls !! l)) →
  am !! id = None → filter (λ p, p.1 ∉ ({[id]} : gset string)) links = links.
Proof.
  intros Hrows Hfresh. apply keep_links_of_amenities.
  intros [a l] Hin Heq%elem_of_singleton. cbn in Heq. subst a.
  destruct (Hrows id l Hin) as [[x Hx] _]. congruence.
Qed.

Ltac nothing_left :=
  rewrite ?referencing_empty, ?remove_empty, ?referencing_empty, ?remove_empty,
          ?referencing_empty, ?remove_empty.

Lemma undo_createUser d id r :
  referential_integrity d → users d !! id = None →
  drop_users {[id]} (set_users (<[id:=r]> (users d)) d) = d.
Proof.
  intros [] Hfresh. destruct d. unfold_drops.
  rewrite (nothing_points_to_fresh Listing.userId _ _ id listing_user0 Hfresh).
  nothing_left.
  rewrite (nothing_points_to_fresh Account.userId _ _ id account_user0 Hfresh).
  rewrite (nothing_points_to_fresh Reservation.userId _ _ id reservation_user0 Hfresh).
  rewrite (nothing_points_to_fresh Review.userId _ _ id review_user0 Hfresh).
  nothing_left.
  rewrite remove_insert_fresh by done.
  rewrite keep_links_of_listings; [done|]. intros p _. apply not_elem_of_empty.
Qed.

Lemma undo_createListing d id r :
  referential_integrity d → listings d !! id = None →
  drop_listings {[id]} (set_listings (<[id:=r]> (listings d)) d) = d.
Proof.
  intros [] Hfresh. destruct d. unfold_drops.
  rewrite (nothing_points_to_fresh Reservation.listingId _ _ id reservation_listing0 Hfresh).
  rewrite (nothing_points_to_fresh Review.listingId _ _ id review_listing0 Hfresh).
  nothing_left.
  rewrite remove_insert_fresh by done.
  by rewrite (links_of_fresh_listing _ _ _ id relation_rows0 Hfresh).
Qed.

Lemma undo_createReservation d id r :
  referential_integrity d → reservations d !! id = None →
  drop_reservations {[id]} (set_reservations (<[id:=r]> (reservations d)) d) = d.
Proof.
  intros [] Hfresh. destruct d. unfold_drops.
  rewrite (nothing_points_to_fresh Payment.reservationId _ _ id payment_reservation0 Hfresh).
  nothing_left. by rewrite remove_insert_fresh.
Qed.

Lemma undo_createAmenity d id r :
  referential_integrity d → amenities d !! id = None →
  drop_amenities {[id]} (set_amenities (<[id:=r]> (amenities d)) d) = d.
Proof.
  intros [] Hfresh. destruct d. unfold_drops.
  rewrite remove_insert_fresh by done.
  by rewrite (links_of_fresh_amenity _ _ _ id relation_rows0 Hfresh).
Qed.

Lemma undo_createAccount d id r :
  accounts d !! id = None →
  drop_accounts {[id]} (set_accounts (<[id:=r]> (accounts d)) d) = d.
Proof. intros Hfresh. destruct d. unfold_drops. by rewrite remove_insert_fresh. Qed.

Lemma undo_createReview d id r :
  reviews d !! id = None →
  drop_reviews {[id]} (set_reviews (<[id:=r]> (reviews d)) d) = d.
Proof. intros Hfresh. destruct d. unfold_drops. by rewrite remove_insert_fresh. Qed.

Lemma undo_createPayment d id r :
  payments d !! id = None →
  drop_payments {[id]} (set_payments (<[id:=r]> (payments d)) d) = d.
Proof. intros Hfresh. destruct d. unfold_drops. by rewrite remove_insert_fresh. Qed.

(** X5. A create followed by the delete of the row it wrote gives back the
  database it started from, for every model: in a reachable state nothing
  can point to a row that is not there yet, so the cascade of the delete
  finds nothing else to remove. *)
Theorem create_then_delete_restores (op del : Op) (d d' : Db.t) :
  reachable d → Undo.delete_of op = Some del →
  apply op d = Ok d' → apply del d' = Ok d.
Proof.
  intros Hd Hdel Hop. pose proof (reachable_integrity d Hd) as Hint.
  destruct op; simplify_eq/=; unfold_db_ops; repeat case_decide; simplify_eq.
  all: repeat match goal with H : ¬ is_Some _ |- _ => apply eq_None_not_Some in H end.
  all: try (f_equal;
            first [ by apply undo_createUser | by apply undo_createListing
                  | by apply undo_createReservation | by apply undo_createAmenity
                  | by apply undo_createAccount | by apply undo_createReview
                  | by apply undo_createPayment ]).
  all: exfalso; unfold_drops;
       match goal with
       | H : <[_:=_]> _ !! _ = None |- _ => by rewrite lookup_insert_eq in H
       end.
Qed.

End schema_undo.

Section schema_listing_delete.
Import Db.

(** X4. Deleting a listing removes the listing, its reservations, its
  reviews, the payments of those reservations and its amenity links, and
  nothing else: users, accounts and amenities are untouched. *)
Theorem deleteListing_removes_exactly_dependents (l : string) (d d' : Db.t) :
  deleteListing l d = Ok d' →
  (∀ i r, listings d' !! i = Some r ↔ listings d !! i = Some r ∧ i ≠ l) ∧
  (∀ i r, reservations d' !! i = Some r ↔
          reservations d !! i = Some r ∧ Reservation.listingId r ≠ l) ∧
  (∀ i r, reviews d' !! i = Some r ↔
          reviews d !! i = Some r ∧ Review.listingId r ≠ l) ∧
  (∀ i p, payments d' !! i = Some p ↔
          payments d !! i = Some p ∧
          ∀ r, reservations d !! Payment.reservationId p = Some r →
               Reservation.listingId r ≠ l) ∧
  (∀ a k, (a, k) ∈ amenityToListing d' ↔ (a, k) ∈ amenityToListing d ∧ k ≠ l) ∧
  users d' = users d ∧ accounts d' = accounts d ∧ amenities d' = amenities d.
Proof.
  unfold deleteListing, delete_from. case_decide; [|done]. intros [= <-].
  unfold_drops. split_and!; try done.
  - intros i r. by rewrite lookup_remove, not_elem_of_singleton.
  - intros i r. by rewrite lookup_cascade, not_elem_of_singleton.
  - intros i r. by rewrite lookup_cascade, not_elem_of_singleton.
  - intros i p. rewrite lookup_cascade, not_referencing_singleton. done.
  - intros a k. rewrite elem_of_filter, not_elem_of_singleton. cbn. tauto.
Qed.

End schema_listing_delete.

Lemma foreign_keys_never_dangle_witness :
  (∀ i r, Db.accounts Scenario.busy_market !! i = Some r →
     is_Some (Db.users Scenario.busy_market !! Account.userId r)) ∧
  (∀ i r, Db.listings Scenario.busy_market !! i = Some r →
     is_Some (Db.users Scenario.busy_market !! Listing.userId r)) ∧
  (∀ i r, Db.reservations Scenario.busy_market !! i = Some r →
     is_Some (Db.users Scenario.busy_market !! Reservation.userId r) ∧
     is_Some (Db.listings Scenario.busy_market !! Reservation.listingId r)) ∧
  (∀ i r, Db.reviews Scenario.busy_market !! i = Some r →
     is_Some (Db.users Scenario.busy_market !! Review.userId r) ∧
     is_Some (Db.listings Scenario.busy_market !! Review.listingId r)) ∧
  (∀ i r, Db.payments Scenario.busy_market !! i = Some r →
     is_Some (Db.reservations Scenario.busy_market !! Payment.reservationId r)) ∧
  (∀ a l, (a, l) ∈ Db.amenityToListing Scenario.busy_market →
     is_Some (Db.amenities Scenario.busy_market !! a) ∧
     is_Some (Db.listings Scenario.busy_market !! l)).
Proof.
  apply (foreign_keys_never_dangle Scenario.busy_market).
  unfold Scenario.busy_market, Scenario.market.
  apply reachable_run, reachable_run, Db.reachable_empty.
Defined.

Lemma unique_columns_hold_witness :
  Db.unique_on Db.same_email (Db.users Scenario.busy_market) ∧
  Db.unique_on Db.same_provider_account (Db.accounts Scenario.busy_market) ∧
  Db.unique_on Db.same_name (Db.amenities Scenario.busy_market).
Proof.
  apply (unique_columns_hold Scenario.busy_market).
  unfold Scenario.busy_market, Scenario.market.
  apply reachable_run, reachable_run, Db.reachable_empty.
Defined.

Lemma deleteUser_removes_exactly_dependents_witness :
  Db.listings (Db.drop_users {[ "guest" ]} Scenario.busy_market) !! "L"
    = Some Scenario.loft ∧
  Db.reservations (Db.drop_users {[ "guest" ]} Scenario.busy_market) !! "r1" = None.
Proof.
  pose proof (deleteUser_removes_exactly_dependents "guest" Scenario.busy_market
                (Db.drop_users {[ "guest" ]} Scenario.busy_market)) as Hdel.
  destruct Hdel as (_ & _ & Hl & Hr & _); [vm_compute; reflexivity|].
  split.
  - apply Hl. split; [vm_compute; reflexivity|discriminate].
  - apply eq_None_not_Some. intros [r Hr1]. apply Hr in Hr1 as (Hstay & Hne & _).
    vm_compute in Hstay. injection Hstay as <-. by apply Hne.
Defined.

Lemma deleteListing_removes_exactly_dependents_witness :
  Db.users (Db.drop_listings {[ "L" ]} Scenario.busy_market)
    = Db.users Scenario.busy_market ∧
  Db.payments (Db.drop_listings {[ "L" ]} Scenario.busy_market) !! "p1" = None.
Proof.
  pose proof (deleteListing_removes_exactly_dependents "L" Scenario.busy_market
                (Db.drop_listings {[ "L" ]} Scenario.busy_market)) as Hdel.
  destruct Hdel as (_ & _ & _ & Hp & _ & Hu & _); [vm_compute; reflexivity|].
  split; [done|].
  apply eq_None_not_Some. intros [p Hp1]. apply Hp in Hp1 as (Hpay & Hne).
  vm_compute in Hpay. injection Hpay as <-.
  apply (Hne Scenario.stay); vm_compute; reflexivity.
Defined.

Lemma create_then_delete_restores_witness :
  let base := Db.exec (Db.DeleteUser "other") Scenario.busy_market in
  Db.apply (Db.DeleteUser "new")
    (Db.exec (Db.CreateUser "new" Scenario.other_guest) base) = Db.Ok base.
Proof.
  apply (create_then_delete_restores (Db.CreateUser "new" Scenario.other_guest)
           (Db.DeleteUser "new")).
  - unfold Scenario.busy_market, Scenario.market.
    apply reachable_exec, reachable_run, reachable_run, Db.reachable_empty.
  - reflexivity.
  - vm_compute. reflexivity.
Defined.

(** ** The authorization middleware, composed *)

Section middleware.
Import Api.

(** X6. A handler wrapped as [withAuth(withRole(roles)(handler))] runs only
  for a session whose user has one of the roles, and then sees the user of
  the session in place of whatever the request carried; without a session the
  answer is the 401, with a session of another role the 403.  With an empty
  list of roles the handler never runs. *)
Theorem guarded_handler_runs_only_with_role
    (roles : list string) (handler : Handler) (session : option SessionUser)
    (req : Request) :
  withAuth (withRole roles handler) session req =
    match session with
    | None => mkResponse 401 (Json (JObj [("error", JStr "Unauthorized")]))
    | Some u =>
        if decide (role u ∈ roles)
        then handler {| user := Some u; payload := payload req |}
        else mkResponse 403 (Json (JObj [("error", JStr "Forbidden")]))
    end ∧
  (∀ u, withAuth (withRole [] handler) (Some u) req
          = mkResponse 403 (Json (JObj [("error", JStr "Forbidden")]))).
Proof.
  split.
  - unfold withAuth, withRole. destruct session as [u|]; [|done]. cbn.
    by case_decide.
  - intros u. unfold withAuth, withRole. cbn.
    rewrite decide_False; [done|]. apply not_elem_of_nil.
Qed.

End middleware.

(** ** The hydration script *)

Section layout.
Import Layout.

Lemma filter_keeps_all {A} (P : A → Prop) `{!∀ x, Decision (P x)} (l : list A) :
  Forall P l → filter P l = l.
Proof.
  induction 1 as [|x l Hx _ IH]; [done|].
  rewrite filter_cons_True by done. by rewrite IH.
Qed.

Lemma filter_agree {A} (P Q : A → Prop)
    `{!∀ x, Decision (P x), !∀ x, Decision (Q x)} (l : list A) :
  Forall (λ x, P x ↔ Q x) l → filter P l = filter Q l.
Proof.
  induction 1 as [|x l Hx _ IH]; [done|].
  rewrite !filter_cons. rewrite IH. destruct (decide (P x)), (decide (Q x)); tauto.
Qed.

Lemma removeIfPresent_attributes name el :
  attributes (removeIfPresent name el) = filter (λ a, a.1 ≠ name) (attributes el).
Proof.
  unfold removeIfPresent, hasAttribute. case_bool_decide as Hin; [done|].
  symmetry. apply filter_keeps_all. apply Forall_forall. intros a Ha Heq.
  apply Hin. rewrite <-Heq. by apply list_elem_of_fmap_2.
Qed.

Lemma removeIfPresent_tagName name el :
  tagName (removeIfPresent name el) = tagName el.
Proof. unfold removeIfPresent. by case_match. Qed.

(** The loop over the snapshot removes the attributes of the snapshot whose
  name starts with the prefix. *)
Lemma strip_snapshot (snapshot : list (string * string)) el :
  let stripped :=
    foldl (λ e attr,
             if String.prefix "__processed_" attr.1
             then removeAttribute attr.1 e else e) el snapshot in
  tagName stripped = tagName el ∧
  attributes stripped =
    filter (λ a, ¬ (String.prefix "__processed_" a.1 = true ∧ a.1 ∈ snapshot.*1))
           (attributes el).
Proof.
  revert el. induction snapshot as [|attr rest IH]; intros el; cbn.
  - split; [done|]. symmetry. apply filter_keeps_all, Forall_forall.
    intros a _ [_ Hin]. by apply not_elem_of_nil in Hin.
  - destruct (IH (if String.prefix "__processed_" attr.1
                  then removeAttribute attr.1 el else el)) as [Htag Hattrs].
    cbn in Htag, Hattrs. rewrite Htag, Hattrs.
    destruct (String.prefix "__processed_" attr.1) eqn:Hprefix; cbn.
    + split; [done|]. rewrite list_filter_filter. apply list_filter_iff.
      intros a. rewrite elem_of_cons. split.
      * intros [Hrest Hne] [Hp [Heq|Hin]]; [done|]. apply Hrest. done.
      * intros Hnot. split.
        -- intros [Hp Hin]. apply Hnot. eauto.
        -- intros Heq. apply Hnot. rewrite Heq. eauto.
    + split; [done|]. apply list_filter_iff. intros a. rewrite elem_of_cons.
      split.
      * intros Hrest [Hp [Heq|Hin]]; [congruence|]. apply Hrest. done.
      * intros Hnot [Hp Hin]. apply Hnot. eauto.
Qed.

Lemma injected_false name :
  injected name = false ↔
  name ≠ "bis_skin_checked" ∧ name ≠ "bis_register" ∧ name ≠ "data-arp" ∧
  String.prefix "__processed_" name = false.
Proof.
  unfold injected. rewrite orb_false_iff, bool_decide_eq_false.
  rewrite !elem_of_cons, elem_of_nil. tauto.
Qed.

Lemma cleanElement_spec el :
  cleanElement el =
    {| tagName := tagName el;
       attributes := filter (λ a, injected a.1 = false) (attributes el) |}.
Proof.
  unfold cleanElement.
  set (el3 := removeIfPresent "data-arp"
                (removeIfPresent "bis_register"
                   (removeIfPresent "bis_skin_checked" el))).
  destruct (strip_snapshot (attributes el3) el3) as [Htag Hattrs].
  cbv zeta in Htag, Hattrs.
  destruct (foldl _ el3 (attributes el3)) as [tag attrs]. cbn in Htag, Hattrs.
  subst tag attrs. f_equal.
  - unfold el3. by rewrite !removeIfPresent_tagName.
  - rewrite (filter_agree _ (λ a, String.prefix "__processed_" a.1 = false)).
    + unfold el3. rewrite !removeIfPresent_attributes, !list_filter_filter.
      apply list_filter_iff. intros a. rewrite injected_false. tauto.
    + apply Forall_forall. intros a Ha. split.
      * intros Hnot. destruct (String.prefix "__processed_" a.1) eqn:Hp; [|done].
        destruct Hnot. split; [done|]. by apply list_elem_of_fmap_2.
      * intros Hp [Hp' _]. congruence.
Qed.

(** X7. The script removes from every element exactly the attributes
  [bis_skin_checked], [bis_register], [data-arp] and those whose name starts
  with [__processed_]: every other attribute keeps its place and its value,
  and no element is added, dropped or renamed. *)
Theorem removeAttributes_strips_exactly_injected (document : list Element) :
  removeAttributes document =
    (λ el, {| tagName := tagName el;
              attributes := filter (λ a, injected a.1 = false) (attributes el) |})
      <$> document.
Proof.
  unfold removeAttributes. apply list_fmap_ext. intros i el _. apply cleanElement_spec.
Qed.

(** X8. Running the script again changes nothing: the second and third run,
  from the timer and from [DOMContentLoaded], leave a document that got no
  new attribute in between as the first run left it; and a document without
  injected attributes is left as it is. *)
Theorem removeAttributes_idempotent (document : list Element) :
  removeAttributes (removeAttributes document) = removeAttributes document ∧
  (Forall (λ el, Forall (λ a, injected a.1 = false) (attributes el)) document →
   removeAttributes document = document).
Proof.
  split.
  - unfold removeAttributes. rewrite <-list_fmap_compose.
    apply list_fmap_ext. intros i el _. cbn. rewrite !cleanElement_spec. cbn.
    f_equal. apply list_filter_filter_l. tauto.
  - intros Hclean. unfold removeAttributes.
    rewrite <-(list_fmap_id document) at 2.
    apply Forall_fmap_ext. eapply Forall_impl; [exact Hclean|].
    intros el Hel. rewrite cleanElement_spec. destruct el as [tag attrs]. cbn in *.
    f_equal. by apply filter_keeps_all.
Qed.

End layout.



Lemma removeAttributes_idempotent_witness :
  Layout.removeAttributes Samples.plain_page = Samples.plain_page.
Proof.
  apply (removeAttributes_idempotent Samples.plain_page).
  repeat constructor.
Defined.

Example touched_page_cleaned :
  Layout.removeAttributes Samples.touched_page =
    [ Layout.mkElement "body" [("class", "font")];
      Layout.mkElement "div" [("class", "pb-20 pt-28")];
      Layout.mkElement "span" [] ].
Proof. vm_compute. reflexivity. Qed.

(** ** The client-side store *)

Section store.
Import Store.
Context {User SearchFilters Listing Reservation : Type}.
Implicit Types (s : AppState User SearchFilters Listing Reservation)
               (reply : LoginReply User).

(** X9. [setUser] always leaves the store saying authenticated exactly when
  it holds a user.  [login] keeps that, and changes nothing at all unless the
  response is ok and readable, except in one case: an ok response whose body
  has no user leaves the store authenticated without a user.  [login] never
  touches the listings, favorites, reservations, search filters or the
  register modal. *)
Theorem store_authenticated_iff_user :
  (∀ u s, consistent (setUser u s)) ∧
  (∀ reply s, consistent s → reply ≠ Responded true (Some None) →
              consistent (login reply s)) ∧
  (∀ s, isAuthenticated (login (Responded true (Some None)) s) = true ∧
        user (login (Responded true (Some None)) s) = None) ∧
  (∀ reply s,
     (∀ u, reply ≠ Responded true (Some u)) → login reply s = s) ∧
  (∀ reply s,
     listings (login reply s) = listings s ∧
     favorites (login reply s) = favorites s ∧
     reservations (login reply s) = reservations s ∧
     searchFilters (login reply s) = searchFilters s ∧
     isRegisterModalOpen (login reply s) = isRegisterModalOpen s).
Proof.
  split_and!.
  - intros u s. reflexivity.
  - intros reply s Hs Hreply. destruct reply as [|[] [[u|]|]]; try done.
  - intros s. done.
  - intros reply s Hreply. destruct reply as [|[] [u|]]; try done.
    by destruct (Hreply u).
  - intros reply s. by destruct reply as [|[] [u|]].
Qed.

End store.

Lemma store_authenticated_iff_user_witness :
  Store.consistent
    (Store.login (Store.Responded true (Some (Some "guest@example.com")))
       Samples.store).
Proof.
  apply (@store_authenticated_iff_user string unit string string).
  - reflexivity.
  - discriminate.
Defined.

(** ** Input validation *)

Section validation.
Import Api Validation.

Lemma as_string_Some o s : as_string o = Some s ↔ o = Some (JStr s).
Proof. unfold as_string. repeat case_match; naive_solver. Qed.

Lemma as_number_Some o n : as_number o = Some n ↔ o = Some (JNum n).
Proof. unfold as_number. repeat case_match; naive_solver. Qed.

(** X10. Every body that [createListingSchema] accepts is accepted by the
  [createPropertySchema] of the route guidelines, with the same title,
  description and price: the listing schema only adds fields and tightens the
  price. *)
Theorem listing_schema_refines_property_schema
    (is_url is_cuid : string → bool) (body : json) (input : ListingInput) :
  createListingSchema_parse is_url is_cuid body = Some input →
  createPropertySchema_parse body =
    Some {| Api.title := title input;
            Api.description := description input;
            Api.price := price input |} ∧
  1 ≤ price input ≤ 10000.
Proof.
  unfold createListingSchema_parse, createPropertySchema_parse.
  destruct body as [| | | | |fields]; try done. intros Hparse.
  repeat match type of Hparse with
         | context [mbind _ ?o] =>
             let x := fresh "x" in
             destruct o as [x|] eqn:?; cbn in Hparse; [|done]
         end.
  case_decide; [|done]. injection Hparse as <-.
  repeat match goal with
         | H : as_string _ = Some _ |- _ => apply as_string_Some in H
         | H : as_number _ = Some _ |- _ => apply as_number_Some in H
         end.
  destruct_and!. cbn.
  repeat match goal with H : get _ fields = Some _ |- _ => rewrite H end.
  rewrite decide_True by lia. split; [done|lia].
Qed.

End validation.

Lemma listing_schema_refines_property_schema_witness :
  Api.createPropertySchema_parse Samples.listing_body =
    Some (Api.mkPropertyInput "Loft" "A loft by the river" 120) ∧
  1 ≤ 120 ≤ 10000.
Proof.
  apply (listing_schema_refines_property_schema Samples.any_text Samples.any_text
           Samples.listing_body
           (Validation.mkListingInput "Loft" "A loft by the river" "apartment"
              2 1 4 "PT" 120 ["https://img/1"] None)).
  vm_compute. reflexivity.
Defined.

(** ** Listing search *)

Section search.
Import Search.
Implicit Types (f : SearchFilters) (db : Db.t) (kv : string * Listing.t).

#[local] Instance newer_first_trans : Transitive newer_first.
Proof. intros a b c. unfold newer_first. lia. Qed.

#[local] Instance newer_first_total : Total newer_first.
Proof. intros a b. unfold newer_first. lia. Qed.

Lemma elem_of_ordered f db kv :
  kv ∈ ordered f db ↔ Db.listings db !! kv.1 = Some kv.2 ∧ matches f db kv.
Proof.
  unfold ordered. rewrite merge_sort_Permutation, elem_of_map_to_list'.
  rewrite map_lookup_filter_Some. by destruct kv.
Qed.

Lemma NoDup_ordered f db : NoDup (ordered f db).*1.
Proof.
  unfold ordered. rewrite merge_sort_Permutation. apply NoDup_fst_map_to_list.
Qed.

Lemma sorted_ordered f db : StronglySorted newer_first (ordered f db).
Proof. apply StronglySorted_merge_sort; apply _. Qed.

Lemma length_ordered f db :
  length (ordered f db) = size (filter (matches f db) (Db.listings db)).
Proof.
  unfold ordered. by rewrite merge_sort_Permutation, length_map_to_list.
Qed.

Lemma window_sublist {A} (l : list A) k n : take n (drop k l) `sublist_of` l.
Proof. etrans; [apply sublist_take|apply sublist_drop]. Qed.

Lemma window_sorted {A} (R : relation A) (l : list A) k n :
  StronglySorted R l → StronglySorted R (take n (drop k l)).
Proof.
  intros Hl. rewrite <-(take_drop k l) in Hl.
  apply StronglySorted_app_1_r in Hl.
  rewrite <-(take_drop n (drop k l)) in Hl.
  by apply StronglySorted_app_1_l in Hl.
Qed.

Lemma getListingsWithFilters_Some f db rows :
  getListingsWithFilters f db = Some rows ↔
  0 ≤ skip f ∧
  rows = include db <$> take 20 (drop (Z.to_nat (skip f)) (ordered f db)).
Proof.
  unfold getListingsWithFilters. case_decide; split.
  - by intros [= <-].
  - by intros [_ ->].
  - done.
  - intros [? _]. lia.
Qed.

(** X11. A page of the search has at most 20 rows, no listing twice, and
  every row is a stored listing that satisfies each filter that was given:
  the category, the location, the price bounds and one of the amenities.  The
  query is answered exactly when the page number is not negative. *)
Theorem search_page_is_sound f db rows :
  getListingsWithFilters f db = Some rows →
  (length rows ≤ 20)%nat ∧
  NoDup (id <$> rows) ∧
  (∀ row, row ∈ rows →
     Db.listings db !! id row = Some (listing row) ∧
     category_ok f (listing row) ∧ location_ok f (listing row) ∧
     price_ok f (listing row) ∧ amenities_ok f db (id row)) ∧
  (∀ p, page f = Some p → 0 ≤ p).
Proof.
  intros [Hskip ->]%getListingsWithFilters_Some. split_and!.
  - rewrite length_fmap, length_take. lia.
  - rewrite <-list_fmap_compose.
    apply (sublist_NoDup _ (ordered f db).*1); [apply NoDup_ordered|].
    apply (fmap_sublist fst), window_sublist.
  - intros row (kv & -> & Hkv)%list_elem_of_fmap.
    eapply elem_of_sublist in Hkv; [|apply window_sublist].
    apply elem_of_ordered in Hkv as [Hkv Hm]. split; [done|]. apply Hm.
  - intros p Hp. unfold skip, given_number in Hskip. rewrite Hp in Hskip.
    case_decide; lia.
Qed.

(** X12. The rows of a page come newest first.  When at most 20 listings
  satisfy the filters, the first page holds every one of them. *)
Theorem search_page_is_newest_first f db rows :
  getListingsWithFilters f db = Some rows →
  StronglySorted
    (λ a b, Listing.createdAt (listing b) ≤ Listing.createdAt (listing a)) rows ∧
  (skip f = 0 →
   (size (filter (matches f db) (Db.listings db)) ≤ 20)%nat →
   ∀ i l, Db.listings db !! i = Some l → matches f db (i, l) →
          ∃ row, row ∈ rows ∧ id row = i ∧ listing row = l).
Proof.
  intros [Hskip ->]%getListingsWithFilters_Some. split.
  - apply (StronglySorted_fmap _ newer_first); [done|].
    apply window_sorted, sorted_ordered.
  - intros Hfirst Hfew i l Hi Hm. rewrite Hfirst.
    change (Z.to_nat 0) with 0%nat. rewrite drop_0.
    rewrite take_ge by (rewrite length_ordered; lia).
    exists (include db (i, l)). split_and!; [|done..].
    apply list_elem_of_fmap_2. by apply elem_of_ordered.
Qed.


End search.

Section search_edges.
Import Search.

Lemma ordered_ext f g db :
  (∀ kv, matches f db kv ↔ matches g db kv) → ordered f db = ordered g db.
Proof.
  intros Hfg. unfold ordered. f_equal. f_equal.
  apply map_filter_ext. intros i x _. apply Hfg.
Qed.

Lemma getListingsWithFilters_ext f g db :
  (∀ kv, matches f db kv ↔ matches g db kv) → skip f = skip g →
  getListingsWithFilters f db = getListingsWithFilters g db.
Proof.
  intros Hfg Hskip. unfold getListingsWithFilters.
  by rewrite Hskip, (ordered_ext f g db Hfg).
Qed.

(** X14. How the query reads its filters.  An empty category or location is
  no filter at all; an empty list of amenities is a filter that no listing
  passes; page 0, page 1 and no page are the same page; a negative page is
  refused. *)
Theorem search_filter_edges (c l : option string) (pr : option PriceRange)
    (am : option (list string)) (pg : option Z) (db : Db.t) :
  getListingsWithFilters (mkSearchFilters (Some "") l pr am pg) db
    = getListingsWithFilters (mkSearchFilters None l pr am pg) db ∧
  getListingsWithFilters (mkSearchFilters c (Some "") pr am pg) db
    = getListingsWithFilters (mkSearchFilters c None pr am pg) db ∧
  (∀ rows, getListingsWithFilters (mkSearchFilters c l pr (Some []) pg) db
             = Some rows → rows = []) ∧
  getListingsWithFilters (mkSearchFilters c l pr am (Some 0)) db
    = getListingsWithFilters (mkSearchFilters c l pr am None) db ∧
  getListingsWithFilters (mkSearchFilters c l pr am (Some 1)) db
    = getListingsWithFilters (mkSearchFilters c l pr am None) db ∧
  (∀ p, p < 0 →
        getListingsWithFilters (mkSearchFilters c l pr am (Some p)) db = None).
Proof.
  split_and!.
  - by apply getListingsWithFilters_ext.
  - by apply getListingsWithFilters_ext.
  - intros rows [_ ->]%getListingsWithFilters_Some.
    assert (ordered (mkSearchFilters c l pr (Some []) pg) db = []) as ->.
    { destruct (ordered _ db) as [|kv rest] eqn:Hord; [done|].
      assert (kv ∈ ordered (mkSearchFilters c l pr (Some []) pg) db) as Hin
        by (rewrite Hord; left).
      apply elem_of_ordered in Hin as (_ & _ & _ & _ & Hnone).
      unfold amenities_ok in Hnone. cbn in Hnone. by apply Exists_nil in Hnone. }
    by rewrite drop_nil.
  - by apply getListingsWithFilters_ext.
  - by apply getListingsWithFilters_ext.
  - intros p Hp. unfold getListingsWithFilters, skip, given_number. cbn.
    repeat case_decide; first [done | lia].
Qed.

Lemma page_of_search (p : Z) f db :
  1 ≤ p →
  getListingsWithFilters (on_page p f) db =
    Some (include db <$> take 20 (drop (20 * Z.to_nat (p - 1)) (ordered f db))).
Proof.
  intros Hp.
  assert (skip (on_page p f) = (p - 1) * 20) as Hskip.
  { unfold skip, given_number, on_page, page. case_decide; [lia|done]. }
  unfold getListingsWithFilters. rewrite Hskip, decide_True by lia.
  rewrite (ordered_ext (on_page p f) f db) by done.
  by replace (Z.to_nat ((p - 1) * 20)) with (20 * Z.to_nat (p - 1))%nat by lia.
Qed.

(** Two arrangements of the same rows that are both sorted are the same
  list, when no two different rows are each before the other. *)
Lemma sorted_arrangement_unique {A} (R : relation A) (l1 l2 : list A) :
  (∀ x y, x ∈ l1 → y ∈ l1 → R x y → R y x → x = y) →
  StronglySorted R l1 → StronglySorted R l2 → l1 ≡ₚ l2 → l1 = l2.
Proof.
  intros Hanti Hl1. revert l2 Hanti.
  induction Hl1 as [|x1 l1 Hs1 IH Hx1]; intros l2 Hanti Hl2 Hperm.
  - symmetry. by apply Permutation_nil.
  - destruct Hl2 as [|x2 l2 Hs2 Hx2].
    + symmetry in Hperm. by apply Permutation_nil_cons in Hperm.
    + assert (x1 = x2) as <-.
      { assert (x1 ∈ x2 :: l2) as Hin1 by (rewrite <-Hperm; left).
        assert (x2 ∈ x1 :: l1) as Hin2 by (rewrite Hperm; left).
        apply elem_of_cons in Hin1 as [?|Hin1]; [done|].
        apply elem_of_cons in Hin2 as [?|Hin2]; [done|].
        rewrite Forall_forall in Hx1, Hx2.
        apply Hanti; [left|by right|by apply Hx1|by apply Hx2]. }
      f_equal. apply IH; [|done|by apply (inj (x1 ::.))].
      intros x y Hx Hy. apply Hanti; by right.
Qed.

Lemma admissible_ordered f db : admissible f db (ordered f db).
Proof.
  split; [|apply sorted_ordered]. unfold ordered. apply merge_sort_Permutation.
Qed.

(** With all instants distinct the query has one answer only. *)
Lemma admissible_unique f db l :
  distinct_instants f db → admissible f db l → l = ordered f db.
Proof.
  intros Hdistinct [Hperm Hsorted].
  apply (sorted_arrangement_unique newer_first); [|done|apply sorted_ordered|].
  - intros [i a] [j b] Hi Hj Hab Hba.
    rewrite Hperm in Hi. rewrite Hperm in Hj.
    apply elem_of_map_to_list, map_lookup_filter_Some in Hi as [Hi Hma].
    apply elem_of_map_to_list, map_lookup_filter_Some in Hj as [Hj Hmb].
    unfold newer_first in Hab, Hba. cbn in Hab, Hba.
    assert (i = j) as -> by (apply (Hdistinct i j a b); first [done | lia]).
    by simplify_eq.
  - rewrite Hperm. symmetry. apply admissible_ordered.
Qed.

Lemma distinct_instants_NoDup f db :
  NoDup ((λ kv, Listing.createdAt kv.2) <$> ordered f db) → distinct_instants f db.
Proof.
  intros Hnodup i j a b Hi Hj Hma Hmb Hsame.
  assert ((i, a) ∈ ordered f db) as Hin1 by (by apply elem_of_ordered).
  assert ((j, b) ∈ ordered f db) as Hin2 by (by apply elem_of_ordered).
  apply list_elem_of_lookup in Hin1 as [k1 Hk1].
  apply list_elem_of_lookup in Hin2 as [k2 Hk2].
  assert (k1 = k2) as ->.
  { apply (NoDup_lookup _ k1 k2 (Listing.createdAt a) Hnodup);
      rewrite list_lookup_fmap; [by rewrite Hk1|by rewrite Hk2, Hsame]. }
  by simplify_eq.
Qed.

Lemma getListingsWithFilters_may_return f db rows :
  getListingsWithFilters f db = Some rows → may_return f db rows.
Proof.
  intros [Hskip ->]%getListingsWithFilters_Some. split; [done|].
  exists (ordered f db). split; [apply admissible_ordered|done].
Qed.

Lemma page_may_return (p : nat) f db rows :
  (1 ≤ p)%nat → distinct_instants f db →
  may_return (on_page (Z.of_nat p) f) db rows →
  rows = include db <$> take 20 (drop (20 * (p - 1)) (ordered f db)).
Proof.
  intros Hp Hdistinct (_ & l & Hl & ->).
  assert (skip (on_page (Z.of_nat p) f) = (Z.of_nat p - 1) * 20) as ->.
  { unfold skip, given_number, on_page, page. case_decide; [lia|done]. }
  change (admissible (on_page (Z.of_nat p) f) db l) with (admissible f db l) in Hl.
  rewrite (admissible_unique f db l Hdistinct Hl).
  by replace (Z.to_nat ((Z.of_nat p - 1) * 20)) with (20 * (p - 1))%nat by lia.
Qed.

(** X15. When no two listings that satisfy the filters were created at the
  same instant, the pages neither overlap nor skip a row, whatever order the
  database gives to rows of equal [createdAt] in each call: pages 1 to n,
  one after the other, are the first 20 n rows of the one ordered result, no
  listing comes twice, and each page is the one the query computes. *)
Theorem search_pages_partition (n : nat) f db (pages : nat → list Found) :
  distinct_instants f db →
  (∀ p, (1 ≤ p ≤ n)%nat → may_return (on_page (Z.of_nat p) f) db (pages p)) →
  mjoin (pages <$> seq 1 n) = include db <$> take (20 * n) (ordered f db) ∧
  NoDup (id <$> mjoin (pages <$> seq 1 n)) ∧
  (∀ p, (1 ≤ p ≤ n)%nat →
     getListingsWithFilters (on_page (Z.of_nat p) f) db = Some (pages p)).
Proof.
  intros Hdistinct Hpages.
  assert (∀ p, (1 ≤ p ≤ n)%nat →
            pages p = include db <$> take 20 (drop (20 * (p - 1)) (ordered f db)))
    as Hpage.
  { intros p Hp. apply page_may_return; [lia|done|by apply Hpages]. }
  clear Hpages.
  assert (mjoin (pages <$> seq 1 n) = include db <$> take (20 * n) (ordered f db))
    as Hjoin.
  { induction n as [|n IH].
    - by rewrite Nat.mul_0_r.
    - rewrite seq_S, fmap_app, join_app, IH by (intros p Hp; apply Hpage; lia).
      cbn. rewrite app_nil_r, (Hpage (S n)) by lia. rewrite <-fmap_app.
      f_equal. replace (S n - 0)%nat with (S n) by lia.
      replace (20 * (S n - 1))%nat with (20 * n)%nat by lia.
      rewrite take_take_drop. f_equal. lia. }
  split_and!.
  - done.
  - rewrite Hjoin, <-list_fmap_compose.
    apply (sublist_NoDup _ (ordered f db).*1); [apply NoDup_ordered|].
    apply (fmap_sublist fst), sublist_take.
  - intros p Hp. rewrite page_of_search, (Hpage p) by lia.
    by replace (Z.to_nat (Z.of_nat p - 1)) with (p - 1)%nat by lia.
Qed.

End search_edges.

Lemma search_pages_partition_witness :
  let pages := λ p : nat,
    default [] (Search.getListingsWithFilters
                  (Search.on_page (Z.of_nat p) Samples.apartments) Samples.catalog) in
  mjoin (pages <$> seq 1 2)
    = Search.include Samples.catalog
        <$> take (20 * 2) (Search.ordered Samples.apartments Samples.catalog) ∧
  NoDup (Search.id <$> mjoin (pages <$> seq 1 2)) ∧
  (∀ p, (1 ≤ p ≤ 2)%nat →
     Search.getListingsWithFilters
       (Search.on_page (Z.of_nat p) Samples.apartments) Samples.catalog
     = Some (pages p)).
Proof.
  apply (search_pages_partition 2 Samples.apartments Samples.catalog).
  - apply distinct_instants_NoDup.
    assert ((λ kv : string * Listing.t, Listing.createdAt kv.2)
              <$> Search.ordered Samples.apartments Samples.catalog = [20; 10])
      as -> by (vm_compute; reflexivity).
    apply NoDup_cons. split; [|apply NoDup_singleton].
    intros [Heq|Hin]%elem_of_cons; [discriminate Heq|by apply elem_of_nil in Hin].
  - intros p Hp. apply getListingsWithFilters_may_return.
    by rewrite page_of_search by lia.
Defined.

Lemma search_page_is_sound_witness :
  let rows := default [] (Search.getListingsWithFilters Samples.apartments
                            Samples.catalog) in
  (length rows ≤ 20)%nat ∧
  NoDup (Search.id <$> rows) ∧
  (∀ row, row ∈ rows →
     Db.listings Samples.catalog !! Search.id row = Some (Search.listing row) ∧
     Search.category_ok Samples.apartments (Search.listing row) ∧
     Search.location_ok Samples.apartments (Search.listing row) ∧
     Search.price_ok Samples.apartments (Search.listing row) ∧
     Search.amenities_ok Samples.apartments Samples.catalog (Search.id row)) ∧
  (∀ p, Search.page Samples.apartments = Some p → 0 ≤ p).
Proof.
  apply (search_page_is_sound Samples.apartments Samples.catalog).
  vm_compute. reflexivity.
Defined.

Lemma search_page_is_newest_first_witness :
  let rows := default [] (Search.getListingsWithFilters Samples.apartments
                            Samples.catalog) in
  ∃ row, row ∈ rows ∧ Search.id row = "L3" ∧ Search.listing row = Samples.studio.
Proof.
  apply (search_page_is_newest_first Samples.apartments Samples.catalog).
  - vm_compute. reflexivity.
  - reflexivity.
  - vm_compute. lia.
  - vm_compute. reflexivity.
  - vm_compute. repeat split.
Defined.


(** With two listings created at the same instant the query has two
  answers. *)
Example ties_leave_the_order_open :
  Search.admissible Samples.apartments Samples.twins
    [("L1", Samples.flat); ("L4", Samples.twin)] ∧
  Search.admissible Samples.apartments Samples.twins
    [("L4", Samples.twin); ("L1", Samples.flat)] ∧
  ¬ Search.distinct_instants Samples.apartments Samples.twins.
Proof.
  assert (map_to_list (filter (Search.matches Samples.apartments Samples.twins)
                         (Db.listings Samples.twins))
          ≡ₚ [("L1", Samples.flat); ("L4", Samples.twin)]) as Hrows.
  { rewrite <-(merge_sort_Permutation Search.newer_first).
    by vm_compute. }
  split_and!.
  - split; [by rewrite Hrows|].
    repeat constructor; unfold Search.newer_first; cbn; lia.
  - split; [rewrite Hrows; apply Permutation_swap|].
    repeat constructor; unfold Search.newer_first; cbn; lia.
  - intros Hdistinct.
    assert ("L1" = "L4") as Heq; [|discriminate Heq].
    apply (Hdistinct "L1" "L4" Samples.flat Samples.twin);
      first [by vm_compute | vm_compute; repeat split].
Qed.

Example apartments_found :
  Search.id <$> default [] (Search.getListingsWithFilters Samples.apartments
                              Samples.catalog) = ["L3"; "L1"].
Proof. vm_compute. reflexivity. Qed.

(** ** The listings cache *)

Section cache.
Import Cache.
Context {Data : Type} (parse : string → option Data) (stringify : Data → string).

Lemma redis_get_setex now now' key k seconds v (r : Redis) :
  redis_get now' k (redis_setex now key seconds v r) =
    if decide (key = k)
    then (if decide (now' < now + seconds) then Some v else None)
    else redis_get now' k r.
Proof.
  unfold redis_get, redis_setex. rewrite lookup_insert. by case_decide.
Qed.

Lemma getCachedListings_miss fresh now key (r : Redis) :
  redis_get now key r = None →
  getCachedListings parse stringify fresh now key r
    = (Some fresh, redis_setex now key 300 (stringify fresh) r).
Proof. intros Hmiss. unfold getCachedListings. by rewrite Hmiss. Qed.

(** X16. After a miss has filled the cache, every call for the same key in
  the next 300 seconds answers from the cache: it returns what [JSON.parse]
  makes of the stored text, whatever the database holds by then, and leaves
  the cache as it is. *)
Theorem cached_listings_served_for_300_seconds
    (first_data later_data : Data) (t0 t1 : Z) (key : string) (r : Redis) :
  redis_get t0 key r = None →
  stringify first_data ≠ "" →
  t0 ≤ t1 < t0 + 300 →
  let first := getCachedListings parse stringify first_data t0 key r in
  let second := getCachedListings parse stringify later_data t1 key first.2 in
  first.1 = Some first_data ∧
  second.1 = parse (stringify first_data) ∧
  second.2 = first.2.
Proof.
  intros Hmiss Htext Ht. cbv zeta.
  rewrite (getCachedListings_miss first_data t0 key r Hmiss). cbn.
  unfold getCachedListings. rewrite redis_get_setex.
  rewrite decide_True by done. rewrite decide_True by lia.
  by rewrite decide_False.
Qed.

(** X17. The cache entry ends after 300 seconds: a call from then on reads
  the database again, returns the new data and stores it for another 300
  seconds.  A call never changes what is stored under another key. *)
Theorem cached_listings_expire_and_keys_are_apart
    (first_data later_data : Data) (t0 t1 : Z) (key : string) (r : Redis) :
  redis_get t0 key r = None →
  t0 + 300 ≤ t1 →
  let first := getCachedListings parse stringify first_data t0 key r in
  let second := getCachedListings parse stringify later_data t1 key first.2 in
  second.1 = Some later_data ∧
  second.2 !! key = Some (stringify later_data, t1 + 300) ∧
  (∀ k, k ≠ key → second.2 !! k = r !! k).
Proof.
  intros Hmiss Ht. cbv zeta.
  rewrite (getCachedListings_miss first_data t0 key r Hmiss). cbn.
  rewrite getCachedListings_miss.
  - cbn. unfold redis_setex. split_and!; [done|apply lookup_insert_eq|].
    intros k Hk. by rewrite !lookup_insert_ne.
  - rewrite redis_get_setex. rewrite decide_True by done.
    rewrite decide_False; [done|lia].
Qed.

End cache.

Lemma cached_listings_served_for_300_seconds_witness :
  let first := Cache.getCachedListings Samples.unbracket Samples.bracket
                 "flat, studio" 1000 "listings:all" ∅ in
  let second := Cache.getCachedListings Samples.unbracket Samples.bracket
                  "flat, studio, villa" 1299 "listings:all" first.2 in
  first.1 = Some "flat, studio" ∧
  second.1 = Samples.unbracket (Samples.bracket "flat, studio") ∧
  second.2 = first.2.
Proof.
  apply (cached_listings_served_for_300_seconds Samples.unbracket Samples.bracket
           "flat, studio" "flat, studio, villa" 1000 1299 "listings:all" ∅).
  - reflexivity.
  - discriminate.
  - lia.
Defined.

Lemma cached_listings_expire_and_keys_are_apart_witness :
  let first := Cache.getCachedListings Samples.unbracket Samples.bracket
                 "flat, studio" 1000 "listings:all" ∅ in
  let second := Cache.getCachedListings Samples.unbracket Samples.bracket
                  "flat, studio, villa" 1300 "listings:all" first.2 in
  second.1 = Some "flat, studio, villa" ∧
  second.2 !! "listings:all" = Some (Samples.bracket "flat, studio, villa", 1600) ∧
  (∀ k, k ≠ "listings:all" → second.2 !! k = (∅ : Cache.Redis) !! k).
Proof.
  apply (cached_listings_expire_and_keys_are_apart Samples.unbracket Samples.bracket
           "flat, studio" "flat, studio, villa" 1000 1300 "listings:all" ∅).
  - reflexivity.
  - lia.
Defined.

Example cache_round_trip :
  Samples.unbracket (Samples.bracket "flat, studio") = Some "flat, studio".
Proof. reflexivity. Qed.

(** ** Sign-up *)

Section auth.
Import Auth.
Variables (signUpSchema : SignUpCredentials → option SignUpCredentials)
          (bcrypt_hash : string → Z → string)
          (sendVerificationEmail : string → User.t → bool).

Abbreviation sign_up := (signUp signUpSchema bcrypt_hash sendVerificationEmail).

Lemma createUser_inv id u db db' :
  Db.createUser id u db = Db.Ok db' →
  Db.users db !! id = None ∧ db' = Db.set_users (<[id:=u]> (Db.users db)) db.
Proof.
  unfold Db.createUser, Db.create, Db.write_user.
  repeat case_decide; intros; simplify_eq. split; [|done].
  by apply eq_None_not_Some.
Qed.

Ltac no_insert Hrun Hres :=
  injection Hrun as <- <-; destruct Hres as [[? Hres]|Hres]; discriminate Hres.

(** What a sign-up that got as far as the insert leaves behind. *)
Lemma signUp_created creds id now db db' res :
  sign_up creds id now db = (db', res) →
  (∃ u, res = inr (id, u)) ∨ res = inl MailFailed →
  ∃ v, signUpSchema creds = Some v ∧
       ¬ findUnique_email (email v) db ∧
       Db.users db !! id = None ∧
       db' = Db.set_users (<[id := new_user bcrypt_hash v now]> (Db.users db)) db ∧
       (∀ u, res = inr (id, u) → u = new_user bcrypt_hash v now).
Proof.
  unfold signUp. intros Hrun Hres.
  destruct (signUpSchema creds) as [v|]; [|no_insert Hrun Hres].
  case_decide as Htaken; [no_insert Hrun Hres|].
  destruct (Db.createUser _ _ db) as [d|e] eqn:Hcreate; [|no_insert Hrun Hres].
  apply createUser_inv in Hcreate as [Hfresh ->]. exists v.
  destruct (sendVerificationEmail _ _); injection Hrun as <- <-;
    split_and!; try done; intros u Hu; by simplify_eq.
Qed.





(** X19. Nothing is rolled back when the verification mail fails: the user
  row stays.  So after any sign-up that got as far as the insert, whether it
  returned the user or failed on the mail, every later sign-up with the same
  email is refused with ['User already exists'] and changes nothing. *)
Theorem signUp_email_is_taken_after_insert
    creds id now db db' res v creds2 v2 id2 now2 :
  sign_up creds id now db = (db', res) →
  (∃ u, res = inr (id, u)) ∨ res = inl MailFailed →
  signUpSchema creds = Some v → signUpSchema creds2 = Some v2 →
  email v2 = email v →
  Db.users db' !! id = Some (new_user bcrypt_hash v now) ∧
  sign_up creds2 id2 now2 db' = (db', inl UserAlreadyExists).
Proof.
  intros Hrun Hres Hv Hv2 Hemail.
  destruct (signUp_created _ _ _ _ _ _ Hrun Hres) as (v' & Hv' & _ & _ & -> & _).
  assert (v' = v) as -> by congruence.
  assert (Db.users (Db.set_users (<[id:=new_user bcrypt_hash v now]> (Db.users db)) db)
            !! id = Some (new_user bcrypt_hash v now)) as Hstored
    by apply lookup_insert_eq.
  split; [done|]. unfold signUp. rewrite Hv2.
  rewrite decide_True; [done|].
  unfold findUnique_email. exists id, (new_user bcrypt_hash v now).
  split; [done|]. by rewrite Hemail.
Qed.

End auth.


Lemma signUp_email_is_taken_after_insert_witness :
  let failed := Auth.signUp Samples.accept_all Samples.tagged_hash
                  Samples.mail_unless_bounce Samples.bouncer "u9" 50 Scenario.market in
  failed.2 = inl Auth.MailFailed ∧
  Auth.signUp Samples.accept_all Samples.tagged_hash Samples.mail_unless_bounce
    Samples.bouncer "u10" 60 failed.1 = (failed.1, inl Auth.UserAlreadyExists).
Proof.
  split; [vm_compute; reflexivity|].
  eapply (signUp_email_is_taken_after_insert Samples.accept_all Samples.tagged_hash
            Samples.mail_unless_bounce Samples.bouncer "u9" 50 Scenario.market).
  - apply surjective_pairing.
  - right. vm_compute. reflexivity.
  - reflexivity.
  - reflexivity.
  - reflexivity.
Defined.

(** ** The route handler of the guidelines *)

Section route.
Import Api.

(** X20. The route handler answers 200 only for a body that was read and
  passed [createPropertySchema], and only when the implementation returned:
  the implementation is never run on a title outside 1 to 100 characters, a
  description outside 10 to 1000 or a price that is not positive, and the
  data of the answer is what it returned.  Every other request gets the
  400, and the handler itself never throws. *)
Theorem POST_runs_only_on_validated_input
    (body : option json) (implementation : PropertyInput → option json) :
  (status_of (POST body implementation) = Some 200 ↔
   ∃ b input result,
     body = Some b ∧ createPropertySchema_parse b = Some input ∧
     implementation input = Some result) ∧
  (∀ b input result,
     body = Some b → createPropertySchema_parse b = Some input →
     implementation input = Some result →
     POST body implementation
       = Returned (mkResponse 200
                     (Json (JObj [("success", JBool true); ("data", result)]))) ∧
     (1 ≤ String.length (title input) ≤ 100)%nat ∧
     (10 ≤ String.length (description input) ≤ 1000)%nat ∧
     0 < price input) ∧
  (status_of (POST body implementation) ≠ Some 200 →
   POST body implementation
     = Returned (mkResponse 400 (Json (JObj [("error", JStr "Invalid request data")])))).
Proof.
  split_and!.
  - unfold POST. destruct body as [b|]; cbn.
    + destruct (createPropertySchema_parse b) as [input|] eqn:Hparse; cbn.
      * destruct (implementation input) as [result|] eqn:Himpl; cbn.
        -- split; [eauto 10|done].
        -- split; [done|]. intros (b' & i' & r' & ? & ? & ?). by simplify_eq.
      * split; [done|]. intros (b' & i' & r' & ? & ? & ?). by simplify_eq.
    + split; [done|]. by intros (b' & i' & r' & ? & ? & ?).
  - intros b input result -> Hparse Himpl. unfold POST. cbn.
    rewrite Hparse. cbn. rewrite Himpl. split; [done|].
    unfold createPropertySchema_parse in Hparse.
    repeat match type of Hparse with
           | context [match ?x with _ => _ end] =>
               lazymatch x with
               | decide _ => fail
               | _ => destruct x eqn:?; try done
               end
           end.
    case_decide as Hok; [|done]. injection Hparse as <-. cbn. tauto.
  - intros Hstatus. destruct (POST_cases body implementation) as [[result Hr]|Hr];
      [|done]. by rewrite Hr in Hstatus.
Qed.

End route.

Lemma POST_runs_only_on_validated_input_witness :
  Api.POST (Some Scenario.loft_body) Scenario.echo_title
    = Api.Returned
        (Api.mkResponse 200
           (Api.Json (Api.JObj [("success", Api.JBool true); ("data", Api.JStr "Loft")]))) ∧
  (1 ≤ String.length "Loft" ≤ 100)%nat ∧
  (10 ≤ String.length "A loft by the river" ≤ 1000)%nat ∧
  0 < 120.
Proof.
  destruct (POST_runs_only_on_validated_input (Some Scenario.loft_body)
              Scenario.echo_title) as (_ & Hrun & _).
  apply (Hrun Scenario.loft_body
           (Api.mkPropertyInput "Loft" "A loft by the river" 120) (Api.JStr "Loft")).
  - reflexivity.
  - vm_compute. reflexivity.
  - reflexivity.
Defined.

Lemma search_filter_edges_witness :
  Search.getListingsWithFilters
    (Search.mkSearchFilters None None None None (Some (-1))) Samples.catalog = None.
Proof.
  apply (search_filter_edges None None None None None Samples.catalog).
  lia.
Defined.

(** ** Search after a delete, and a sign-up taken back *)

Section compositions.
Import Search.

Lemma found_rows_are_stored f db rows row :
  getListingsWithFilters f db = Some rows → row ∈ rows →
  Db.listings db !! id row = Some (listing row).
Proof.
  intros [_ ->]%getListingsWithFilters_Some (kv & -> & Hkv)%list_elem_of_fmap.
  eapply elem_of_sublist in Hkv; [|apply window_sublist].
  by apply elem_of_ordered in Hkv as [Hkv _].
Qed.

(** X21. A search over the database that a delete left never returns what
  the delete removed: after deleting a listing, no page has that listing;
  after deleting a user, no page has a listing of that user, and the owner
  shown with a row is never that user. *)
Theorem search_never_returns_deleted f (db db' : Db.t) rows row :
  getListingsWithFilters f db' = Some rows → row ∈ rows →
  (∀ l, Db.deleteListing l db = Db.Ok db' → id row ≠ l) ∧
  (∀ u, Db.deleteUser u db = Db.Ok db' →
        Listing.userId (listing row) ≠ u ∧
        ∀ o, user row = Some o → owner_id o ≠ u).
Proof.
  intros Hrows Hrow.
  pose proof (found_rows_are_stored f db' rows row Hrows Hrow) as Hstored.
  split.
  - intros l. unfold Db.deleteListing, Db.delete_from. case_decide; [|done].
    intros [= <-]. unfold_drops.
    apply lookup_remove in Hstored as [_ Hne]. by apply not_elem_of_singleton in Hne.
  - intros u. unfold Db.deleteUser, Db.delete_from. case_decide; [|done].
    intros [= <-]. unfold_drops.
    apply lookup_cascade in Hstored as [_ Hne%not_elem_of_singleton].
    split; [done|]. intros o Ho.
    apply getListingsWithFilters_Some in Hrows as [_ ->].
    apply list_elem_of_fmap in Hrow as (kv & -> & _). cbn in *.
    destruct (_ !! Listing.userId kv.2); by simplify_eq/=.
Qed.

End compositions.

Section sign_up_undone.
Import Auth.
Variables (signUpSchema : SignUpCredentials → option SignUpCredentials)
          (bcrypt_hash : string → Z → string)
          (sendVerificationEmail : string → User.t → bool).

(** X22. In a reachable state, deleting the user that a sign-up has just
  inserted, whether the sign-up returned the user or failed on the mail,
  gives back exactly the database from before the sign-up. *)
Theorem signUp_then_delete_leaves_no_trace creds id now (db db' : Db.t) res :
  Db.reachable db →
  signUp signUpSchema bcrypt_hash sendVerificationEmail creds id now db = (db', res) →
  (∃ u, res = inr (id, u)) ∨ res = inl MailFailed →
  Db.deleteUser id db' = Db.Ok db.
Proof.
  intros Hdb Hrun Hres.
  destruct (signUp_created _ _ _ _ _ _ _ _ _ Hrun Hres)
    as (v & _ & _ & Hfresh & -> & _).
  unfold Db.deleteUser, Db.delete_from.
  rewrite decide_True.
  - f_equal. apply undo_createUser; [by apply reachable_integrity|done].
  - exists (new_user bcrypt_hash v now).
    change (<[id:=new_user bcrypt_hash v now]> (Db.users db) !! id
            = Some (new_user bcrypt_hash v now)).
    apply lookup_insert_eq.
Qed.

End sign_up_undone.

Lemma search_never_returns_deleted_witness :
  let db' := Db.exec (Db.DeleteListing "L3") Samples.catalog in
  Search.id (Search.include db' ("L1", Samples.flat)) ≠ "L3".
Proof.
  apply (search_never_returns_deleted Samples.apartments Samples.catalog
           (Db.exec (Db.DeleteListing "L3") Samples.catalog)
           (default [] (Search.getListingsWithFilters Samples.apartments
                          (Db.exec (Db.DeleteListing "L3") Samples.catalog)))).
  - vm_compute. reflexivity.
  - vm_compute. left.
  - vm_compute. reflexivity.
Defined.

Lemma signUp_then_delete_leaves_no_trace_witness :
  Db.deleteUser "u9"
    (Auth.signUp Samples.accept_all Samples.tagged_hash Samples.mail_unless_bounce
       Samples.bouncer "u9" 50 Scenario.market).1
  = Db.Ok Scenario.market.
Proof.
  eapply (signUp_then_delete_leaves_no_trace Samples.accept_all Samples.tagged_hash
            Samples.mail_unless_bounce Samples.bouncer "u9" 50).
  - unfold Scenario.market. apply reachable_run, Db.reachable_empty.
  - apply surjective_pairing.
  - right. vm_compute. reflexivity.
Defined.
